(** * pk::card, pk::deck and pk::poker (poker.h): a shallow embedding

  The header declares a card (two bit-fields), a deck (a vector of
  cards) and a poker table (a draw pile and one deck per player).  The
  methods are embedded as state-passing functions: a method of a class
  takes the object and returns the object it leaves behind together
  with what happened (normal return, a C++ exception, or undefined
  behaviour).  Integers are [Z]; every conversion to a narrower
  unsigned type is written out as a reduction modulo a power of two. *)

From stdpp Require Import base numbers list strings sorting.

Local Open Scope Z_scope.

(** ** Integer conversions *)

Module cxx.

(** Conversion of an integer to an unsigned type of [w] value bits. *)
Definition to_unsigned (w x : Z) : Z := x mod 2 ^ w.

(** [unsigned short] (16 bits) and [unsigned int] (32 bits).  [size_t]
    is wider than [unsigned int] (64 bits), so the size of a vector is
    not reduced: a vector can hold [2 ^ 32] elements and more. *)
Definition ushort (x : Z) : Z := to_unsigned 16 x.
Definition uint (x : Z) : Z := to_unsigned 32 x.

(** ** Exceptions and outcomes *)

Inductive exn : Type :=
| invalid_argument (what : string)
| out_of_range (what : string).

(** What a call does to the object it is applied to: it returns [a]
    and leaves the object as [s]; or it throws [e], the object being
    [s] at the throw; or its behaviour is undefined (reading or
    popping the back of an empty vector, indexing out of bounds,
    sorting with a comparator that is not a strict weak ordering). *)
Inductive outcome (S A : Type) : Type :=
| Ret (a : A) (s : S)
| Exc (e : exn) (s : S)
| UB.
Global Arguments Ret {S A} a s.
Global Arguments Exc {S A} e s.
Global Arguments UB {S A}.

Definition M (S A : Type) : Type := S → outcome S A.

Definition ret {S A} (a : A) : M S A := λ s, Ret a s.
Definition throw {S A} (e : exn) : M S A := λ s, Exc e s.
Definition get {S} : M S S := λ s, Ret s s.
Definition gets {S A} (f : S → A) : M S A := λ s, Ret (f s) s.
Definition modify {S} (f : S → S) : M S () := λ s, Ret () (f s).

Definition bind {S A B} (m : M S A) (k : A → M S B) : M S B :=
  λ s, match m s with
       | Ret a s' => k a s'
       | Exc e s' => Exc e s'
       | UB => UB
       end.

(** [for (i = 0; i < n; ++i) acc = body(acc)], the loop-carried local
    being [acc]. *)
Fixpoint repeat_loop {S A} (n : nat) (body : A → M S A) (acc : A) : M S A :=
  match n with
  | O => ret acc
  | S n' => bind (body acc) (repeat_loop n' body)
  end.

(** [for (i = lo; i < hi; ++i) body(i)] *)
Definition for_range {S} (lo hi : Z) (body : Z → M S ()) : M S () :=
  foldr (λ i k, bind (body i) (λ _, k)) (ret ()) (seqZ lo (hi - lo)).

(** ** std::sort *)

Section std_sort.
Context {A : Type} (comp : A → A → bool).

(** [x] may stand before [y] in a range sorted by [comp]. *)
Definition may_precede (x y : A) : Prop := comp y x = false.

Global Instance may_precede_dec (x y : A) : Decision (may_precede x y).
Proof. unfold may_precede. apply _. Defined.

(** The postcondition of [std::sort]: for no two positions [i < j] does
    [comp(a[j], a[i])] hold. *)
Definition sorted_by (l : list A) : Prop := StronglySorted may_precede l.

Definition equiv (a b : A) : bool := negb (comp a b) && negb (comp b a).

(** The precondition of [std::sort] on the values of the range: [comp]
    is irreflexive and transitive, and so is the equivalence it
    induces. *)
Definition strict_weak_on (l : list A) : bool :=
  forallb (λ a, negb (comp a a)) l
  && forallb (λ a, forallb (λ b, forallb (λ c,
       implb (comp a b && comp b c) (comp a c)) l) l) l
  && forallb (λ a, forallb (λ b, forallb (λ c,
       implb (equiv a b && equiv b c) (equiv a c)) l) l) l.

(** [std::sort(first, last, comp)] on the whole vector.  With a
    comparator that is not a strict weak ordering the behaviour is
    undefined.  Otherwise the range is left sorted and a permutation
    of what it was; the algorithm is the library's, and the embedding
    computes a sorted permutation with a merge sort. *)
Definition std_sort : M (list A) () := λ l,
  if strict_weak_on l then Ret () (merge_sort may_precede l) else UB.

End std_sort.

End cxx.

Import cxx.

Notation "x <~ m ;; k" := (bind m (λ x, k))
(at level 100, m at next level, right associativity, only parsing).
Notation "m ;;; k" := (bind m (λ _, k))
(at level 100, right associativity, only parsing).

(** ** struct card *)

(** The unnamed enum of suits. *)
Definition CLUB : Z := 0.
Definition DIAMOND : Z := 1.
Definition HEART : Z := 2.
Definition SPADE : Z := 3.

Module card.

(** [unsigned short suit:2; unsigned short number:4;] *)
Record t : Type := mk { suit : Z; number : Z }.

Global Instance eq_dec : EqDecision t.
Proof. solve_decision. Defined.

(** [card(unsigned short _suit = 0, unsigned short _number = 0)
      : suit{_suit}, number{_number}]: the argument is converted to
    [unsigned short], and storing it in the bit-field keeps the low
    2 (resp. 4) bits. *)
Definition ctor (_suit _number : Z) : t :=
  {| suit := to_unsigned 2 (ushort _suit);
     number := to_unsigned 4 (ushort _number) |}.

(** [bool operator==(card const& rop)] *)
Definition eqb (a rop : t) : bool :=
  (number a =? number rop) && (suit a =? suit rop).

(** A card whose fields are values of their bit-fields. *)
Definition wf (c : t) : Prop :=
  0 ≤ suit c < 4 ∧ 0 ≤ number c < 16.

End card.


(** ** class deck *)

Module deck.

(** [std::vector<struct card> pile]; the member [output_stream] only
    selects how the deck is printed. *)
Abbreviation t := (list card.t).

(** [void push_back(struct card c)] *)
Definition push_back (c : card.t) : M t () := modify (λ pile, pile ++ [c]).

(** [void pop_back(void)] *)
Definition pop_back : M t () := λ pile,
  match pile with
  | [] => UB
  | _ => Ret () (removelast pile)
  end.

(** [size_t size(void) const] *)
Definition size (pile : t) : Z := Z.of_nat (length pile).

(** [bool empty(void) const] *)
Definition empty (pile : t) : bool := size pile =? 0.

(** [struct card& back()] *)
Definition back : M t card.t := λ pile,
  match last pile with
  | None => UB
  | Some c => Ret c pile
  end.

(** [struct card& operator[](unsigned int index)], read. *)
Definition at_ (index : Z) : M t card.t := λ pile,
  match pile !! Z.to_nat index with
  | None => UB
  | Some c => Ret c pile
  end.

(** [operator[]], write through the reference. *)
Definition set_at (index : Z) (c : card.t) : M t () := λ pile,
  match pile !! Z.to_nat index with
  | None => UB
  | Some _ => Ret () (<[Z.to_nat index := c]> pile)
  end.

(** [std::find(pile.begin(), pile.end(), c)]: the position of the first
    element [e] with [e == c], the length of the vector (its end) when
    there is none. *)
Fixpoint find (pile : t) (c : card.t) : nat :=
  match pile with
  | [] => O
  | e :: rest => if card.eqb e c then O else S (find rest c)
  end.

(** [card remove(card const& c)] *)
Definition remove (c : card.t) : M t card.t :=
  pile <~ get;;
  let it := find pile c in
  if (it =? length pile)%nat then
    throw (invalid_argument "He or she does not have the card")
  else
    modify (delete it);;;
    ret c.

(** [deck suit_subdeck(int suit) const]: [std::for_each] over the
    receiver pushes the matching cards on the local [dktmp], which is
    returned. *)
Definition suit_subdeck (suit : Z) : M t t := λ pile,
  match
    foldr (λ crd k,
             bind (if card.suit crd =? suit then push_back crd else ret ())
                  (λ _, k))
          (ret ()) pile []
  with
  | Ret _ dktmp => Ret dktmp pile
  | Exc e _ => Exc e pile
  | UB => UB
  end.

Inductive sort_mode : Type :=
| rank_first_descending
| suit_first_descending.

(** The two lambdas of [deck::sort]. *)
Definition comp_rank_first (a b : card.t) : bool :=
  if negb (card.number a =? card.number b) then
    (card.number a =? 1)
    || (negb (card.number b =? 1) && (card.number a >? card.number b))
  else card.suit a >? card.suit b.

Definition comp_suit_first (a b : card.t) : bool :=
  if card.suit a =? card.suit b then
    (card.number a =? 1)
    || (negb (card.number b =? 1) && (card.number a >? card.number b))
  else card.suit a >? card.suit b.

(** [void sort(sort_mode mode = sort_mode::rank_first_descending)] *)
Definition sort (mode : sort_mode) : M t () :=
  match mode with
  | rank_first_descending => std_sort comp_rank_first
  | suit_first_descending => std_sort comp_suit_first
  end.

End deck.

(** ** class poker *)

Module poker.

(** [unsigned int players; deck pile; std::vector<deck> player_card;] *)
Record t : Type := mk {
  players : Z;
  pile : deck.t;
  player_card : list deck.t
}.

(** A call on the member [pile]. *)
Definition on_pile {A} (m : M deck.t A) : M t A := λ g,
  match m (pile g) with
  | Ret a d => Ret a (mk (players g) d (player_card g))
  | Exc e d => Exc e (mk (players g) d (player_card g))
  | UB => UB
  end.

(** A call on [player_card[player_no]]; [operator[]] of a vector does
    not check its index. *)
Definition on_player {A} (player_no : Z) (m : M deck.t A) : M t A := λ g,
  match player_card g !! Z.to_nat player_no with
  | None => UB
  | Some d =>
      let store d' :=
        mk (players g) (pile g) (<[Z.to_nat player_no := d']> (player_card g)) in
      match m d with
      | Ret a d' => Ret a (store d')
      | Exc e d' => Exc e (store d')
      | UB => UB
      end
  end.

(** [explicit poker(unsigned int deck = 1, unsigned int player = 2,
    bool joker = false) : players{player}]: the body runs on the object
    whose [players] is initialised and whose [pile] and [player_card]
    are empty; when it throws there is no object. *)
Definition ctor (deck player : Z) (joker : bool) : outcome t () :=
  (if player =? 0 then
     throw (invalid_argument "Argument 'player' cannot be zero")
   else
     repeat_loop (Z.to_nat deck) (λ _,
       for_range 0 4 (λ i,
         for_range 1 14 (λ j,
           on_pile (deck.push_back (card.ctor i j))));;;
       if joker then
         on_pile (deck.push_back (card.ctor 1 14));;;
         on_pile (deck.push_back (card.ctor 1 14))
       else ret ()) ();;;
     n <~ gets players;;
     repeat_loop (Z.to_nat n) (λ _,
       modify (λ g, mk (players g) (pile g) (player_card g ++ [[]]))) ())
  (mk player [] []).

(** The values [static_cast<unsigned int>(floor(unif(generator)))] can
    take for [unif(0.0, sz)]: an index below [sz]; on the empty
    interval [sz = 0] the distribution returns its lower bound. *)
Definition unif_floor (sz x : Z) : bool :=
  if sz =? 0 then x =? 0 else (0 <=? x) && (x <? sz).

(** [do { b = ... } while (a == b);] reading the successive draws from
    [rs]: the draw that ends the loop and the draws left, or [None]
    when every draw of [rs] equals [a] and the loop is still running. *)
Fixpoint redraw (a : Z) (rs : list Z) : option (Z * list Z) :=
  match rs with
  | [] => None
  | b :: rs' => if a =? b then redraw a rs' else Some (b, rs')
  end.

(** [std::swap(pile[a], pile[b])] *)
Definition swap (a b : Z) : M deck.t () :=
  x <~ deck.at_ a;;
  y <~ deck.at_ b;;
  deck.set_at a y;;;
  deck.set_at b x.

(** The loop of [shuffle] for [time] iterations on the draws [rs];
    [None] when the draws run out before the loop ends. *)
Fixpoint shuffle_loop (time : nat) (rs : list Z) (g : t)
  : option (outcome t ()) :=
  match time with
  | O => Some (Ret () g)
  | S time' =>
      match rs with
      | [] => None
      | a :: rs1 =>
          match redraw a rs1 with
          | None => None
          | Some (b, rs2) =>
              match on_pile (swap a b) g with
              | Ret _ g' => shuffle_loop time' rs2 g'
              | Exc e g' => Some (Exc e g')
              | UB => Some UB
              end
          end
      end
  end.

(** [unsigned int sz = pile.size();], the bound of the distribution. *)
Definition shuffle_sz (g : t) : Z := uint (deck.size (pile g)).

(** [void shuffle(unsigned int time = 1000)], the generator being
    replaced by the sequence [rs] of the indices it yields. *)
Definition shuffle (time : Z) (rs : list Z) (g : t) : option (outcome t ()) :=
  shuffle_loop (Z.to_nat time) rs g.

(** [void play(unsigned int player_no, card const& c)] *)
Definition play (player_no : Z) (c : card.t) : M t () :=
  n <~ gets players;;
  if player_no >=? n then
    throw (out_of_range "The player number is too large")
  else
    on_player player_no (deck.remove c);;;
    ret ().

(** [struct card draw(unsigned int player_no)] *)
Definition draw (player_no : Z) : M t card.t :=
  n <~ gets players;;
  if player_no >=? n then
    throw (out_of_range "The player number is too large")
  else
    c <~ on_pile deck.back;;
    on_player player_no (deck.push_back c);;;
    on_pile deck.pop_back;;;
    on_player player_no deck.back.

(** The body of the loop of [deal]; [player_no] is the local it
    carries. *)
Definition deal_body (player_no : Z) : M t Z :=
  c <~ on_pile deck.back;;
  on_player player_no (deck.push_back c);;;
  on_pile deck.pop_back;;;
  n <~ gets players;;
  let player_no := uint (player_no + 1) in
  ret (if player_no >=? n then 0 else player_no).

(** [void deal(unsigned int card_per_person)] *)
Definition deal (card_per_person : Z) : M t () :=
  n <~ gets players;;
  let card_per_person := uint (card_per_person * n) in
  repeat_loop (Z.to_nat card_per_person) deal_body 0;;;
  ret ().

(** [std::for_each(player_card.begin(), player_card.end(), ...)] with
    the lambda calling [tmp.sort()]. *)
Fixpoint sort_each (hands : list deck.t) : outcome (list deck.t) () :=
  match hands with
  | [] => Ret () []
  | tmp :: rest =>
      match deck.sort deck.rank_first_descending tmp with
      | Ret _ tmp' =>
          match sort_each rest with
          | Ret _ rest' => Ret () (tmp' :: rest')
          | Exc e rest' => Exc e (tmp' :: rest')
          | UB => UB
          end
      | Exc e tmp' => Exc e (tmp' :: rest)
      | UB => UB
      end
  end.

(** [void sort_player_card()] *)
Definition sort_player_card : M t () := λ g,
  match sort_each (player_card g) with
  | Ret _ hands => Ret () (mk (players g) (pile g) hands)
  | Exc e hands => Exc e (mk (players g) (pile g) hands)
  | UB => UB
  end.

(** The class invariant the constructor establishes. *)
Definition wf (g : t) : Prop :=
  1 ≤ players g < 2 ^ 32 ∧ Z.of_nat (length (player_card g)) = players g.

(** The number of cards on the table: pile and hands. *)
Definition total (g : t) : Z :=
  deck.size (pile g) + foldr (λ d n, deck.size d + n) 0 (player_card g).

End poker.

(** ** Auxiliary definitions for the statements *)

Module aux.

(** The joker the constructor of [poker] pushes: [card{1,14}]. *)
Definition joker : card.t := card.ctor DIAMOND 14.

(** What one round of the constructor's outer loop appends: the 52
    cards by suit and rank, then the two jokers when asked for. *)
Definition fresh_deck (with_jokers : bool) : deck.t :=
  concat ((λ s, (λ n, card.mk s n) <$> seqZ 1 13) <$> seqZ 0 4)
  ++ (if with_jokers then [card.mk DIAMOND 14; card.mk DIAMOND 14] else []).

(** The table a constructor call that does not throw builds. *)
Definition built (deck player : Z) (with_jokers : bool) : poker.t :=
  poker.mk player
    (concat (replicate (Z.to_nat deck) (fresh_deck with_jokers)))
    (replicate (Z.to_nat player) []).

(** The table with the cards [cs] pushed on its pile, one by one. *)
Definition put_cards (cs : list card.t) (g : poker.t) : poker.t :=
  poker.mk (poker.players g) (poker.pile g ++ cs) (poker.player_card g).

(** The table with [n] empty hands pushed on [player_card]. *)
Definition put_hands (n : nat) (g : poker.t) : poker.t :=
  poker.mk (poker.players g) (poker.pile g)
    (poker.player_card g ++ replicate n []).

(** A method run on the table an outcome leaves. *)
Definition and_then {A B} (o : outcome poker.t A) (m : M poker.t B)
  : outcome poker.t B :=
  match o with
  | Ret _ g => m g
  | Exc e g => Exc e g
  | UB => UB
  end.

(** [poker game(1, 1, true); game.deal(2);]: the one hand holds the two
    jokers. *)
Definition two_jokers : outcome poker.t () :=
  and_then (poker.ctor 1 1 true) (poker.deal 2).

(** [play(i, c)] on a hand that holds [c] shortens the hand by one and
    leaves no card equal to [c] in it. *)
Definition play_removes_all (g : poker.t) (i : Z) (c : card.t) : Prop :=
  ∀ hand,
    poker.player_card g !! Z.to_nat i = Some hand → c ∈ hand →
    ∃ g' hand',
      poker.play i c g = Ret () g'
      ∧ poker.player_card g' !! Z.to_nat i = Some hand'
      ∧ deck.size hand' = deck.size hand - 1
      ∧ (c ∉ hand').

(** What [deal(k)] is to have done when it leaves [g'] from [g]: the
    pile lost its last [k * players] cards, and hand [i] gained [k]
    cards, the [r]-th of them being the card popped in turn
    [r * players + i], counting the turns from 0 and the pile from its
    end. *)
Definition dealt_round_robin (g : poker.t) (k : Z) (g' : poker.t) : Prop :=
  let p := length (poker.player_card g) in
  let n := length (poker.pile g) in
  poker.players g' = poker.players g
  ∧ poker.pile g' = take (n - Z.to_nat k * p) (poker.pile g)
  ∧ deck.size (poker.pile g') = deck.size (poker.pile g) - k * poker.players g
  ∧ length (poker.player_card g') = p
  ∧ ∀ (i : nat) hand,
      poker.player_card g !! i = Some hand →
      ∃ dealt,
        poker.player_card g' !! i = Some (hand ++ dealt)
        ∧ Z.of_nat (length dealt) = k
        ∧ ∀ r : nat, (r < length dealt)%nat →
            dealt !! r = poker.pile g !! (n - 1 - (r * p + i))%nat.

(** The state of the loop of [deal] after [q] full rounds and [s] more
    turns, started on [g0]. *)
Definition deal_inv (g0 : poker.t) (q s : nat) (player_no : Z) (g : poker.t)
  : Prop :=
  let p := length (poker.player_card g0) in
  let n := length (poker.pile g0) in
  player_no = Z.of_nat s
  ∧ poker.players g = poker.players g0
  ∧ poker.pile g = take (n - (q * p + s)) (poker.pile g0)
  ∧ length (poker.player_card g) = p
  ∧ ∀ (i : nat) hand,
      poker.player_card g0 !! i = Some hand →
      ∃ dealt,
        poker.player_card g !! i = Some (hand ++ dealt)
        ∧ length dealt = (if decide (i < s)%nat then S q else q)
        ∧ ∀ r : nat, (r < length dealt)%nat →
            dealt !! r = poker.pile g0 !! (n - 1 - (r * p + i))%nat.

(** [deal(k)] on a table of [players] hands and at least [k * players]
    cards in the pile deals round-robin. *)
Definition deal_deals (g : poker.t) (k : Z) : Prop :=
  poker.wf g → 0 ≤ k < 2 ^ 32 →
  k * poker.players g ≤ deck.size (poker.pile g) →
  ∃ g', poker.deal k g = Ret () g' ∧ dealt_round_robin g k g'.

(** The draws [rs] are values the distribution of [shuffle] can yield
    on the table [g]. *)
Definition drawable (g : poker.t) (rs : list Z) : Prop :=
  Forall (λ x, poker.unif_floor (poker.shuffle_sz g) x = true) rs.

(** A sequence of draws on which every [do ... while (a == b)] ends at
    once: [a = 0], [b = 1], [time] times over. *)
Definition zero_one (time : Z) : list Z :=
  concat (replicate (Z.to_nat time) [0; 1]).

(** On a pile of at least two cards there are draws on which
    [shuffle(time)] returns. *)
Definition shuffle_can_return (g : poker.t) (time : Z) : Prop :=
  2 ≤ deck.size (poker.pile g) →
  ∃ rs g', drawable g rs ∧ poker.shuffle time rs g = Some (Ret () g').

(** A table of one player and a pile of one card. *)
Definition one_card : poker.t := poker.mk 1 [card.mk SPADE 1] [[]].

(** The calls a session makes on its table. *)
Inductive op : Type :=
| Shuffle (time : Z) (rs : list Z)
| Deal (card_per_person : Z)
| Draw (player_no : Z)
| Play (player_no : Z) (c : card.t).

(** The table a sequence of calls leaves when each of them returns
    normally. *)
Fixpoint run (ops : list op) (g : poker.t) : option poker.t :=
  match ops with
  | [] => Some g
  | o :: ops' =>
      match o with
      | Shuffle time rs =>
          match poker.shuffle time rs g with
          | Some (Ret _ g') => run ops' g'
          | _ => None
          end
      | Deal k =>
          match poker.deal k g with
          | Ret _ g' => run ops' g'
          | _ => None
          end
      | Draw i =>
          match poker.draw i g with
          | Ret _ g' => run ops' g'
          | _ => None
          end
      | Play i c =>
          match poker.play i c g with
          | Ret _ g' => run ops' g'
          | _ => None
          end
      end
  end.

(** The number of [play] calls among [ops]. *)
Fixpoint plays (ops : list op) : Z :=
  match ops with
  | [] => 0
  | Play _ _ :: ops' => 1 + plays ops'
  | _ :: ops' => plays ops'
  end.

(** A hand of 17 cards dealt from two source decks, the ace of spades
    of both at positions 1 and 8. *)
Definition twin_aces : deck.t :=
  [card.mk SPADE 13; card.mk SPADE 1; card.mk SPADE 12; card.mk SPADE 11;
   card.mk SPADE 10; card.mk SPADE 9; card.mk SPADE 8; card.mk SPADE 7;
   card.mk SPADE 1; card.mk SPADE 6; card.mk SPADE 5; card.mk SPADE 4;
   card.mk SPADE 3; card.mk SPADE 2; card.mk HEART 13; card.mk HEART 12;
   card.mk HEART 11].

End aux.


(** ** Sessions: sequences of calls on a table *)

Module session.

(** The calls of the public interface of [poker] that change the
    table. *)
Inductive call : Type :=
| Shuffle (time : Z) (rs : list Z)
| Deal (card_per_person : Z)
| Draw (player_no : Z)
| Play (player_no : Z) (c : card.t)
| SortPlayerCard.

(** The table a call leaves to a caller that catches what is thrown:
    the table at the return or at the throw; none when the behaviour is
    undefined. *)
Definition left {A} (o : outcome poker.t A) : option poker.t :=
  match o with
  | Ret _ g => Some g
  | Exc _ g => Some g
  | UB => None
  end.

Definition step (c : call) (g : poker.t) : option poker.t :=
  match c with
  | Shuffle time rs =>
      match poker.shuffle time rs g with
      | Some o => left o
      | None => None
      end
  | Deal k => left (poker.deal k g)
  | Draw i => left (poker.draw i g)
  | Play i c => left (poker.play i c g)
  | SortPlayerCard => left (poker.sort_player_card g)
  end.

(** The table a sequence of calls leaves, when every call comes to an
    end with defined behaviour. *)
Fixpoint run (calls : list call) (g : poker.t) : option poker.t :=
  match calls with
  | [] => Some g
  | c :: calls' =>
      match step c g with
      | Some g' => run calls' g'
      | None => None
      end
  end.

(** The cards on the table: the pile, then the hands in turn. *)
Definition cards (g : poker.t) : list card.t :=
  poker.pile g ++ concat (poker.player_card g).

(** One turn of a round of draws: [draw(player_no)], then on to the
    next player as the loop of [deal] goes. *)
Definition draw_turn (player_no : Z) : M poker.t Z :=
  poker.draw player_no;;;
  n <~ gets poker.players;;
  let next := uint (player_no + 1) in
  ret (if next >=? n then 0 else next).

(** A session of the kind of the demo: shuffle, deal, sort, the
    [play(2, 3)] of the demo and a [play] of a card. *)
Definition demo_calls : list call :=
  [Shuffle 3 [0; 1; 5; 5; 7; 2; 2; 2; 3]; Deal 13; SortPlayerCard;
   Play 2 (card.ctor 3 0); Play 0 (card.mk CLUB 10)].

(** How many cards equal to [c] a deck holds. *)
Definition copies (c : card.t) (pile : deck.t) : Z :=
  Z.of_nat (length (filter (λ e, e = c) pile)).

End session.

(** ** Output *)

Module ostream.

(** What the insertions of poker.h read and write of a [std::ostream]:
    the characters written, the field width, and the adjustment and
    the fill character of padded output.  The stream is taken to stay
    good. *)
Record t : Type := mk {
  written : string;
  width : Z;
  left : bool;
  fill : Ascii.ascii
}.

Fixpoint fill_n (n : nat) (c : Ascii.ascii) : string :=
  match n with
  | O => ""
  | S n' => String c (fill_n n' c)
  end.

(** A C string or a char as formatted output inserts it: padded with
    the fill character up to the width, before the text unless the
    adjustment is [left]. *)
Definition padded (os : t) (s : string) : string :=
  let pad := fill_n (Z.to_nat (width os) - String.length s) (fill os) in
  if left os then s +:+ pad else pad +:+ s.

(** [os << s] for a C string (or a char): the padded text is written
    and the width is reset. *)
Definition put (s : string) : M t () :=
  modify (λ os, mk (written os +:+ padded os s) 0 (left os) (fill os)).

(** [os << std::setw(n)] *)
Definition setw (n : Z) : M t () :=
  modify (λ os, mk (written os) n (left os) (fill os)).

(** A computation that may not come to an end: [None] then. *)
Definition P (A : Type) : Type := t → option (outcome t A).

Definition ends {A} (m : M t A) : P A := λ os, Some (m os).

Definition then_ {A B} (p : P A) (k : A → P B) : P B := λ os,
  match p os with
  | Some (Ret a os') => k a os'
  | Some (Exc e os') => Some (Exc e os')
  | Some UB => Some UB
  | None => None
  end.

End ostream.

Module out.

Import ostream.

(** [card::suit_image], the UTF-8 variant ([#if unix || __GNUC__]). *)
Definition suit_image : list string := ["♣"; "♦"; "♥"; "♠"].

(** [card::cardname] *)
Definition cardname : list string :=
  [""; "A"; "2"; "3"; "4"; "5"; "6"; "7"; "8"; "9"; "10"; "J"; "Q"; "K";
   "JOKER"].

(** Reading an array of the card class at a field of a card: undefined
    past its end (a field is never negative). *)
Definition at_ (table : list string) (index : Z) : M t string := λ os,
  match table !! Z.to_nat index with
  | Some s => Ret s os
  | None => UB
  end.

(** [char const* card::suit_sign() const] *)
Definition suit_sign (cd : card.t) : M t string :=
  at_ suit_image (card.suit cd).

(** [char const* card::card_rank() const] *)
Definition card_rank (cd : card.t) : M t string :=
  at_ cardname (card.number cd).

(** [std::ostream& operator<<(std::ostream& os, const card& cd)] *)
Definition card_out (cd : card.t) : M t () :=
  if card.number cd =? 14 then
    r <~ card_rank cd;;
    put r
  else
    s <~ suit_sign cd;;
    put s;;;
    put " ";;;
    setw 2;;;
    r <~ card_rank cd;;
    put r.

(** The C string ["\n"]. *)
Definition newline : string := String (Ascii.ascii_of_nat 10) "".

(** [enum class print_mode] *)
Inductive print_mode : Type :=
| no_sort
| sort_by_number
| sort_by_suit
| rank_only.

(** A deck with the member [output_stream] (one of the four private
    printing methods, named here by the mode that selects it); the
    default is [&deck::no_sort_ostream]. *)
Record deck_t : Type := mk_deck {
  output_stream : print_mode;
  pile : deck.t
}.

(** [void set_print_mode(print_mode mode = print_mode::no_sort) const] *)
Definition set_print_mode (mode : print_mode) (dk : deck_t) : deck_t :=
  mk_deck mode (pile dk).

(** [std::ostream& deck::no_sort_ostream(std::ostream &os) const].
    The index of its loop is an [unsigned int] compared with [size()]:
    on [2 ^ 32] cards or more it wraps before it reaches the size, and
    the loop prints on for ever, unless printing one of the first
    [2 ^ 32] cards is undefined. *)
Definition no_sort_ostream (cards : deck.t) : P () := λ os,
  if deck.empty cards then Some (Ret () os)
  else if deck.size cards <? 2 ^ 32 then
    Some ((c0 <~ (λ os, match cards !! 0%nat with
                         | Some c => Ret c os
                         | None => UB
                         end);;
           card_out c0;;;
           for_range 1 (deck.size cards) (λ i,
             put "  ";;;
             c <~ (λ os, match cards !! Z.to_nat i with
                         | Some c => Ret c os
                         | None => UB
                         end);;
             card_out c)) os)
  else if forallb (λ c, match card_out c os with UB => false | _ => true end)
                  (take (Z.to_nat (2 ^ 32)) cards)
  then None
  else Some UB.

(** [std::ostream& deck::rank_only_ostream(std::ostream &os) const] *)
Definition rank_only_ostream (cards : deck.t) : M t () :=
  foldr (λ crd k, (r <~ card_rank crd;; put r;;; put " ");;; k)
        (ret ()) cards.

(** [operator<<(std::ostream &os, const deck& dk)], which calls the
    method [dk.output_stream] points to, with the methods
    [sort_by_number_ostream] and [sort_by_suit_ostream], which call it
    back on a local deck.  [fuel] bounds the depth of these calls. *)
Fixpoint deck_out (fuel : nat) (dk : deck_t) : P () :=
  match fuel with
  | O => λ _, None
  | S fuel' =>
      match output_stream dk with
      | no_sort => no_sort_ostream (pile dk)
      | rank_only => ends (rank_only_ostream (pile dk))
      | sort_by_number =>
          (* deck tmp = *this; tmp.sort(); os << tmp; *)
          match deck.sort deck.rank_first_descending (pile dk) with
          | Ret _ sorted => deck_out fuel' (mk_deck (output_stream dk) sorted)
          | Exc e _ => λ os, Some (Exc e os)
          | UB => λ _, Some UB
          end
      | sort_by_suit =>
          (* for (int i = SPADE; i >= CLUB; --i) *)
          foldr (λ i k,
                   then_
                     (match deck.suit_subdeck i (pile dk) with
                      | Ret sub _ =>
                          let tmp := set_print_mode rank_only (mk_deck no_sort sub) in
                          then_ (ends (s <~ at_ suit_image i;; put s;;; put "  "))
                            (λ _, then_ (deck_out fuel' tmp)
                                    (λ _, ends (put newline)))
                      | Exc e _ => λ os, Some (Exc e os)
                      | UB => λ _, Some UB
                      end)
                     (λ _, k))
                (ends (ret ())) [SPADE; HEART; DIAMOND; CLUB]
      end
  end.

(** [std::ostream& operator<<(std::ostream& os, poker pk)]: the pile,
    whose [output_stream] nothing can have set. *)
Definition poker_out (fuel : nat) (pk : poker.t) : P () :=
  deck_out fuel (mk_deck no_sort (poker.pile pk)).

(** The text [card_out] writes for a card on a stream of width 0 and
    the adjustment and fill of [os]; empty when there is none. *)
Definition text (os : t) (cd : card.t) : string :=
  match card_out cd (mk "" 0 (left os) (fill os)) with
  | Ret _ os' => written os'
  | _ => ""
  end.

(** A card whose fields are values of the bit-fields and whose number
    is in [cardname]. *)
Definition printable (cd : card.t) : Prop :=
  0 ≤ card.suit cd ≤ 3 ∧ 0 ≤ card.number cd ≤ 14.

(** The texts of a list joined by [sep]. *)
Fixpoint join (sep : string) (texts : list string) : string :=
  match texts with
  | [] => ""
  | [s] => s
  | s :: rest => s +:+ sep +:+ join sep rest
  end.

(** The label of a card in [cardname], empty when there is none. *)
Definition label (cd : card.t) : string :=
  default "" (cardname !! Z.to_nat (card.number cd)).

(** The labels of the cards of a suit, in the order of the deck, a space
    after each. *)
Definition ranks (suit : Z) (cards : deck.t) : string :=
  foldr (λ cd acc, label cd +:+ " " +:+ acc) ""
        (filter (λ cd, card.suit cd = suit) cards).

(** The line of a suit: its sign, two spaces, the labels, a newline. *)
Definition suit_line (suit : Z) (cards : deck.t) : string :=
  default "" (suit_image !! Z.to_nat suit) +:+ "  "
  +:+ ranks suit cards +:+ newline.

(** The face of a card, read off the two tables: [JOKER] for the number
    14, whatever the suit; else the sign of the suit, a space, and the
    label of the number in a field of two, the fill character before
    the label, or after it on a stream adjusted [left]. *)
Definition face (os : t) (cd : card.t) : string :=
  if card.number cd =? 14 then "JOKER"
  else
    let pad := fill_n (2 - String.length (label cd)) (fill os) in
    default "" (suit_image !! Z.to_nat (card.suit cd)) +:+ " "
    +:+ (if left os then label cd +:+ pad else pad +:+ label cd).

End out.

(** ** The header of 2019 *)

Module v2019.

(** The comparator of [poker::sort_player_card] of 2019: the lesser
    number first, and the lesser suit first among equal numbers. *)
Definition comp (a b : card.t) : bool :=
  if card.number a <? card.number b then true
  else if card.number a =? card.number b then
    if card.suit a <? card.suit b then true else false
  else false.

(** [for (auto &vec : player_card)] with [std::sort] on the vector of
    each hand. *)
Fixpoint sort_each (hands : list deck.t) : outcome (list deck.t) () :=
  match hands with
  | [] => Ret () []
  | vec :: rest =>
      match std_sort comp vec with
      | Ret _ vec' =>
          match sort_each rest with
          | Ret _ rest' => Ret () (vec' :: rest')
          | Exc e rest' => Exc e (vec' :: rest')
          | UB => UB
          end
      | Exc e vec' => Exc e (vec' :: rest)
      | UB => UB
      end
  end.

(** [void poker::sort_player_card()] of 2019. *)
Definition sort_player_card : M poker.t () := λ g,
  match sort_each (poker.player_card g) with
  | Ret _ hands => Ret () (poker.mk (poker.players g) (poker.pile g) hands)
  | Exc e hands => Exc e (poker.mk (poker.players g) (poker.pile g) hands)
  | UB => UB
  end.

End v2019.
(** * Properties *)

(** ** The state monad *)

Lemma repeat_loop_total {S} (step : S → S) (body : () → M S ()) (n : nat) (s : S) :
  (∀ s', body () s' = Ret () (step s')) →
  repeat_loop n body () s = Ret () (Nat.iter n step s).
Proof.
  intros Hbody. revert s.
  induction n as [|n IH]; intros s; [done|].
  simpl. unfold bind. rewrite Hbody, IH.
  by rewrite <- Nat.iter_succ_r.
Qed.

(** ** struct card *)

Lemma ctor_suit (s n : Z) : card.suit (card.ctor s n) = s mod 4.
Proof.
  unfold card.ctor, ushort, to_unsigned; simpl.
  apply Z.mod_mod_divide. by exists (2 ^ 14).
Qed.

Lemma ctor_number (s n : Z) : card.number (card.ctor s n) = n mod 16.
Proof.
  unfold card.ctor, ushort, to_unsigned; simpl.
  apply Z.mod_mod_divide. by exists (2 ^ 12).
Qed.

Lemma card_eqb_eq (a b : card.t) : card.eqb a b = true ↔ a = b.
Proof.
  destruct a as [sa na], b as [sb nb]; unfold card.eqb; simpl.
  rewrite andb_true_iff, !Z.eqb_eq. split; [intros []|intros [=]]; by subst.
Qed.

(** C10. Whatever integers [s] and [n] the constructor of [card] is
    given, it rejects nothing and stores [s mod 4] as suit and
    [n mod 16] as number, values of the two bit-fields; the card built
    from [(s, n)] is the card built from the reduced pair, and
    [operator==] on two built cards compares the reduced values only. *)
Theorem card_ctor_truncates (s n s' n' : Z) :
  card.suit (card.ctor s n) = s mod 4
  ∧ card.number (card.ctor s n) = n mod 16
  ∧ card.wf (card.ctor s n)
  ∧ card.ctor s n = card.ctor (s mod 4) (n mod 16)
  ∧ card.eqb (card.ctor s n) (card.ctor s' n')
    = bool_decide (s mod 4 = s' mod 4 ∧ n mod 16 = n' mod 16).
Proof.
  assert (Hmk : ∀ x y, card.ctor x y = card.mk (x mod 4) (y mod 16)).
  { intros x y. pose proof (ctor_suit x y). pose proof (ctor_number x y).
    destruct (card.ctor x y); simpl in *; congruence. }
  split_and!.
  - apply ctor_suit.
  - apply ctor_number.
  - unfold card.wf. rewrite ctor_suit, ctor_number.
    pose proof (Z.mod_pos_bound s 4). pose proof (Z.mod_pos_bound n 16). lia.
  - rewrite !Hmk. by rewrite !Z.mod_mod.
  - rewrite !Hmk. unfold card.eqb; simpl.
    destruct (Z.eqb_spec (n mod 16) (n' mod 16)),
             (Z.eqb_spec (s mod 4) (s' mod 4)); simpl;
      symmetry; (apply bool_decide_eq_true || apply bool_decide_eq_false);
      tauto.
Qed.

(** ** deck::suit_subdeck *)

Lemma suit_subdeck_loop (suit : Z) (pile dktmp : deck.t) :
  foldr (λ crd k,
           bind (if card.suit crd =? suit then deck.push_back crd else ret ())
                (λ _, k))
        (ret ()) pile dktmp
  = Ret () (dktmp ++ filter (λ c, card.suit c = suit) pile).
Proof.
  revert dktmp. induction pile as [|crd pile IH]; intros dktmp; simpl.
  - by rewrite app_nil_r.
  - unfold bind at 1. rewrite filter_cons.
    destruct (Z.eqb_spec (card.suit crd) suit) as [Heq|Hne].
    + rewrite decide_True by done.
      unfold deck.push_back, modify. rewrite IH. by rewrite <- app_assoc.
    + rewrite decide_False by done. unfold ret. by rewrite IH.
Qed.

(** C9. [suit_subdeck(s)] returns the cards of the deck whose suit is
    [s], in the order they have in the deck, and leaves the deck as it
    was; the jokers, which carry the suit DIAMOND, are all in
    [suit_subdeck(DIAMOND)]. *)
Theorem suit_subdeck_spec (pile : deck.t) (s : Z) :
  deck.suit_subdeck s pile
  = Ret (filter (λ c, card.suit c = s) pile) pile
  ∧ ∃ diamonds,
      deck.suit_subdeck DIAMOND pile = Ret diamonds pile
      ∧ filter (λ c, c = aux.joker) diamonds
        = filter (λ c, c = aux.joker) pile.
Proof.
  assert (Hsub : ∀ x, deck.suit_subdeck x pile
                      = Ret (filter (λ c, card.suit c = x) pile) pile).
  { intros x. unfold deck.suit_subdeck. by rewrite suit_subdeck_loop. }
  split; [apply Hsub|].
  eexists. split; [apply Hsub|].
  rewrite list_filter_filter. apply list_filter_iff.
  intros c. split; [tauto|]. intros ->. by split.
Qed.

(** ** poker::poker *)

Lemma put_cards_nil (g : poker.t) : aux.put_cards [] g = g.
Proof. destruct g. unfold aux.put_cards; simpl. by rewrite app_nil_r. Qed.

Lemma put_cards_app (cs1 cs2 : list card.t) (g : poker.t) :
  aux.put_cards cs2 (aux.put_cards cs1 g) = aux.put_cards (cs1 ++ cs2) g.
Proof. unfold aux.put_cards; simpl. by rewrite app_assoc. Qed.

Lemma on_pile_push_back (c : card.t) (g : poker.t) :
  poker.on_pile (deck.push_back c) g = Ret () (aux.put_cards [c] g).
Proof. done. Qed.

(** A loop over a range whose body pushes the cards [F i]. *)
Lemma for_range_put_cards (F : Z → list card.t) (body : Z → M poker.t ())
    (lo hi : Z) (g : poker.t) :
  (∀ i g', body i g' = Ret () (aux.put_cards (F i) g')) →
  for_range lo hi body g
  = Ret () (aux.put_cards (concat (F <$> seqZ lo (hi - lo))) g).
Proof.
  intros Hbody. unfold for_range.
  generalize (seqZ lo (hi - lo)) as l. intros l. revert g.
  induction l as [|i l IH]; intros g; simpl.
  - by rewrite put_cards_nil.
  - unfold bind. by rewrite Hbody, IH, put_cards_app.
Qed.

Lemma ctor_fill_deck (joker : bool) (g : poker.t) :
  (for_range 0 4 (λ i,
     for_range 1 14 (λ j, poker.on_pile (deck.push_back (card.ctor i j))));;;
   if joker then
     poker.on_pile (deck.push_back (card.ctor 1 14));;;
     poker.on_pile (deck.push_back (card.ctor 1 14))
   else ret ()) g
  = Ret () (aux.put_cards (aux.fresh_deck joker) g).
Proof.
  unfold bind at 1.
  rewrite (for_range_put_cards
             (λ i, concat ((λ j, [card.ctor i j]) <$> seqZ 1 (14 - 1)))).
  2:{ intros i g'.
      by rewrite (for_range_put_cards (λ j, [card.ctor i j])). }
  destruct joker.
  - unfold bind. rewrite !on_pile_push_back, !put_cards_app. done.
  - reflexivity.
Qed.

Lemma iter_put_cards (cs : list card.t) (n : nat) (g : poker.t) :
  Nat.iter n (aux.put_cards cs) g
  = aux.put_cards (concat (replicate n cs)) g.
Proof.
  induction n as [|n IH]; simpl.
  - by rewrite put_cards_nil.
  - rewrite IH, put_cards_app. f_equal.
    clear IH. induction n as [|n IH]; simpl.
    + by rewrite app_nil_r.
    + by rewrite <- app_assoc, IH.
Qed.

Lemma iter_put_hands (n : nat) (g : poker.t) :
  Nat.iter n (aux.put_hands 1) g = aux.put_hands n g.
Proof.
  induction n as [|n IH]; simpl.
  - destruct g; unfold aux.put_hands; simpl. by rewrite app_nil_r.
  - rewrite IH. unfold aux.put_hands; simpl. f_equal.
    rewrite <- app_assoc. f_equal.
    change ([] :: replicate n []) with (replicate (S n) (A:=deck.t) []).
    by rewrite replicate_S_end.
Qed.

Lemma fresh_deck_size (joker : bool) :
  deck.size (aux.fresh_deck joker) = 52 + Z.b2z joker * 2.
Proof. by destruct joker. Qed.

Lemma concat_replicate_size (n : nat) (cs : deck.t) :
  deck.size (concat (replicate n cs)) = Z.of_nat n * deck.size cs.
Proof.
  unfold deck.size. induction n as [|n IH]; simpl; [lia|].
  rewrite length_app. lia.
Qed.

Lemma ctor_built (deck player : Z) (joker : bool) :
  player ≠ 0 →
  poker.ctor deck player joker = Ret () (aux.built deck player joker).
Proof.
  intros Hplayer. unfold poker.ctor.
  destruct (Z.eqb_spec player 0) as [?|_]; [done|].
  unfold bind at 1.
  rewrite (repeat_loop_total (aux.put_cards (aux.fresh_deck joker)))
    by (intros; apply ctor_fill_deck).
  unfold bind, gets.
  rewrite (repeat_loop_total (aux.put_hands 1)) by done.
  by rewrite iter_put_cards, iter_put_hands.
Qed.

Lemma built_size (deck player : Z) (joker : bool) :
  0 ≤ deck →
  deck.size (poker.pile (aux.built deck player joker))
  = deck * (52 + Z.b2z joker * 2).
Proof.
  intros Hdeck. unfold aux.built. cbn [poker.pile].
  rewrite concat_replicate_size, fresh_deck_size. by rewrite Z2Nat.id.
Qed.

Lemma built_wf (deck player : Z) (joker : bool) :
  1 ≤ player < 2 ^ 32 → poker.wf (aux.built deck player joker).
Proof.
  intros Hplayer. unfold poker.wf, aux.built.
  cbn [poker.players poker.player_card].
  split; [done|]. rewrite length_replicate. lia.
Qed.

(** C2. With at least one deck and at least one player the constructor
    returns a table whose pile holds, deck after deck, the 52 cards of
    suits 0..3 and numbers 1..13 followed (when jokers are asked for) by
    two cards of suit DIAMOND and number 14, that is
    [deck * 52 + joker * deck * 2] cards, and whose [player] hands are
    all empty; with no player it throws [invalid_argument]. *)
Theorem ctor_spec (deck player : Z) (joker : bool) :
  1 ≤ deck → 1 ≤ player →
  poker.ctor deck player joker = Ret () (aux.built deck player joker)
  ∧ deck.size (poker.pile (aux.built deck player joker))
    = deck * 52 + Z.b2z joker * deck * 2
  ∧ Z.of_nat (length (poker.player_card (aux.built deck player joker)))
    = player
  ∧ Forall (λ hand, hand = []) (poker.player_card (aux.built deck player joker))
  ∧ ∃ g, poker.ctor deck 0 joker
         = Exc (invalid_argument "Argument 'player' cannot be zero") g.
Proof.
  intros Hdeck Hplayer. split_and!.
  - unfold poker.ctor.
    destruct (Z.eqb_spec player 0) as [->|_]; [lia|].
    unfold bind at 1.
    rewrite (repeat_loop_total (aux.put_cards (aux.fresh_deck joker)))
      by (intros; apply ctor_fill_deck).
    unfold bind, gets.
    rewrite (repeat_loop_total (aux.put_hands 1)) by done.
    by rewrite iter_put_cards, iter_put_hands.
  - simpl. rewrite concat_replicate_size, fresh_deck_size. lia.
  - simpl. rewrite length_replicate. lia.
  - simpl. apply Forall_replicate. done.
  - by eexists.
Qed.

(** The constructor call of the demo, [poker game(1, 4, false)]. *)
Lemma ctor_spec_witness :
  poker.ctor 1 4 false = Ret () (aux.built 1 4 false)
  ∧ deck.size (poker.pile (aux.built 1 4 false)) = 52.
Proof.
  destruct (ctor_spec 1 4 false) as (Hret & Hsize & _); [lia|lia|].
  split; [exact Hret|exact Hsize].
Defined.

(** ** deck::remove and poker::play *)

Lemma find_not_elem_of (pile : deck.t) (c : card.t) :
  c ∉ pile → deck.find pile c = length pile.
Proof.
  induction pile as [|e pile IH]; intros Hc; simpl; [done|].
  apply not_elem_of_cons in Hc as [Hne Hc].
  destruct (card.eqb e c) eqn:He.
  - apply card_eqb_eq in He. congruence.
  - by rewrite IH.
Qed.

Lemma find_first (before after : deck.t) (c : card.t) :
  c ∉ before → deck.find (before ++ c :: after) c = length before.
Proof.
  induction before as [|e before IH]; intros Hc; simpl.
  - by rewrite (proj2 (card_eqb_eq c c)).
  - apply not_elem_of_cons in Hc as [Hne Hc].
    destruct (card.eqb e c) eqn:He.
    + apply card_eqb_eq in He. congruence.
    + by rewrite IH.
Qed.

Lemma remove_absent (pile : deck.t) (c : card.t) :
  c ∉ pile →
  deck.remove c pile
  = Exc (invalid_argument "He or she does not have the card") pile.
Proof.
  intros Hc. unfold deck.remove, bind, get.
  rewrite find_not_elem_of by done. by rewrite Nat.eqb_refl.
Qed.

Lemma remove_first (before after : deck.t) (c : card.t) :
  c ∉ before →
  deck.remove c (before ++ c :: after) = Ret c (before ++ after).
Proof.
  intros Hc. unfold deck.remove, bind, get.
  rewrite find_first by done.
  destruct (Nat.eqb_spec (length before) (length (before ++ c :: after)))
    as [Hlen|_].
  - rewrite length_app in Hlen. simpl in Hlen. lia.
  - unfold modify, ret. by rewrite delete_middle.
Qed.

Lemma wf_hand (g : poker.t) (i : Z) :
  poker.wf g → 0 ≤ i < poker.players g →
  ∃ hand, poker.player_card g !! Z.to_nat i = Some hand.
Proof.
  intros [_ Hlen] Hi. apply lookup_lt_is_Some_2. lia.
Qed.

(** C4, as the code has it.  On a table with [player_card.size() ==
    players] and for a player number below [players]: when the hand
    holds [c], [play] removes the first card equal to [c] and nothing
    else (the hand is one card shorter and holds one copy of [c] less;
    copies behind the first stay); when it does not, [play] throws
    [invalid_argument] and the table is what it was.  For every player
    number that is not below [players], [play] throws [out_of_range]
    and the table is what it was. *)
Theorem play_spec (g : poker.t) (i j : Z) (c : card.t) :
  poker.wf g → 0 ≤ i < poker.players g → poker.players g ≤ j →
  (∃ hand,
     poker.player_card g !! Z.to_nat i = Some hand
     ∧ if decide (c ∈ hand) then
         ∃ before after,
           hand = before ++ c :: after ∧ (c ∉ before)
           ∧ poker.play i c g
             = Ret () (poker.mk (poker.players g) (poker.pile g)
                         (<[Z.to_nat i := before ++ after]> (poker.player_card g)))
           ∧ deck.size (before ++ after) = deck.size hand - 1
           ∧ length (filter (λ e, e = c) (before ++ after))
             = pred (length (filter (λ e, e = c) hand))
       else
         poker.play i c g
         = Exc (invalid_argument "He or she does not have the card") g)
  ∧ poker.play j c g
    = Exc (out_of_range "The player number is too large") g.
Proof.
  intros Hwf Hi Hj. split.
  - destruct (wf_hand g i Hwf Hi) as [hand Hhand].
    exists hand. split; [done|].
    unfold poker.play, bind, gets.
    destruct (Z.geb_spec i (poker.players g)) as [?|_]; [lia|].
    unfold poker.on_player. rewrite Hhand.
    destruct (decide (c ∈ hand)) as [Hin|Hnotin].
    + apply list_elem_of_split_l in Hin as (before & after & -> & Hbefore).
      exists before, after. rewrite remove_first by done.
      split_and!; [done..| |].
      * unfold deck.size. rewrite !length_app. simpl. lia.
      * rewrite !filter_app, filter_cons, decide_True by done.
        rewrite !length_app. simpl. lia.
    + rewrite remove_absent by done.
      rewrite list_insert_id by done. by destruct g.
  - unfold poker.play, bind, gets.
    destruct (Z.geb_spec j (poker.players g)) as [_|?]; [done|lia].
Qed.

(** On the hand of two jokers [play(0, joker)] takes the first and
    leaves the second; there is no player 7. *)
Lemma play_spec_witness :
  ∃ g g',
    aux.two_jokers = Ret () g
    ∧ poker.play 0 aux.joker g = Ret () g'
    ∧ poker.player_card g' = [[aux.joker]]
    ∧ poker.play 7 aux.joker g
      = Exc (out_of_range "The player number is too large") g.
Proof.
  pose (g := poker.mk 1 (take 52 (aux.fresh_deck true)) [[aux.joker; aux.joker]]).
  assert (Hwf : poker.wf g) by (split; simpl; lia).
  destruct (play_spec g 0 7 aux.joker Hwf) as [(hand & Hhand & Hplay) Hrange];
    [simpl; lia..|].
  injection Hhand as <-.
  destruct (decide (aux.joker ∈ [aux.joker; aux.joker])) as [_|Hnotin];
    [|exfalso; apply Hnotin; by left].
  destruct Hplay as (before & after & Hsplit & Hbefore & Hret & _).
  destruct before as [|c before].
  - injection Hsplit as <-.
    exists g. eexists. split_and!; [vm_compute; reflexivity|exact Hret|done|exact Hrange].
  - injection Hsplit as <- _. exfalso. apply Hbefore. by left.
Defined.

(** C4 as stated fails on a hand with two equal cards: after
    [play(0, joker)] on the hand of two jokers a joker is still found. *)
Lemma play_leaves_second_copy :
  ∃ g, aux.two_jokers = Ret () g
       ∧ poker.wf g
       ∧ ¬ aux.play_removes_all g 0 aux.joker.
Proof.
  exists (poker.mk 1 (take 52 (aux.fresh_deck true)) [[aux.joker; aux.joker]]).
  split; [vm_compute; reflexivity|].
  split; [split; simpl; lia|].
  intros Hclaim.
  destruct (Hclaim [aux.joker; aux.joker])
    as (g' & hand' & Hplay & Hhand' & _ & Hnot); [done|by left|].
  vm_compute in Hplay. injection Hplay as <-.
  vm_compute in Hhand'. injection Hhand' as <-.
  apply Hnot. vm_compute. by left.
Qed.

(** ** poker::deal *)

Lemma deal_body_step (g : poker.t) (player_no : Z) (rest hand : deck.t)
    (c : card.t) :
  poker.pile g = rest ++ [c] →
  poker.player_card g !! Z.to_nat player_no = Some hand →
  poker.deal_body player_no g
  = Ret (if uint (player_no + 1) >=? poker.players g then 0
         else uint (player_no + 1))
        (poker.mk (poker.players g) rest
           (<[Z.to_nat player_no := hand ++ [c]]> (poker.player_card g))).
Proof.
  intros Hpile Hhand.
  unfold poker.deal_body, bind, poker.on_pile at 1, deck.back.
  rewrite Hpile, last_snoc.
  unfold poker.on_player. simpl. rewrite Hhand.
  unfold deck.push_back, modify, poker.on_pile, deck.pop_back. simpl.
  rewrite removelast_last.
  by destruct rest.
Qed.

Lemma uint_small (x : Z) : 0 ≤ x < 2 ^ 32 → uint x = x.
Proof. intros Hx. unfold uint, to_unsigned. by apply Z.mod_small. Qed.

(** One turn of the loop keeps the invariant, moving to the next
    player or, after the last player, to the next round. *)
Lemma deal_body_inv (g0 g : poker.t) (q s : nat) (player_no : Z) :
  poker.wf g0 →
  aux.deal_inv g0 q s player_no g →
  (s < length (poker.player_card g0))%nat →
  (q * length (poker.player_card g0) + s < length (poker.pile g0))%nat →
  ∃ player_no' g',
    poker.deal_body player_no g = Ret player_no' g'
    ∧ if decide (S s < length (poker.player_card g0))%nat
      then aux.deal_inv g0 q (S s) player_no' g'
      else aux.deal_inv g0 (S q) 0 player_no' g'.
Proof.
  intros [Hp Hlen] (-> & Hplayers & Hpile & Hhands & Hdealt) Hs Hm.
  set (p := length (poker.player_card g0)) in *.
  set (n := length (poker.pile g0)) in *.
  destruct (lookup_lt_is_Some_2 (poker.pile g0) (n - 1 - (q * p + s))%nat)
    as [c Hc]; [lia|].
  assert (Hsnoc : poker.pile g
                  = take (n - 1 - (q * p + s)) (poker.pile g0) ++ [c]).
  { rewrite Hpile.
    replace (n - (q * p + s))%nat with (S (n - 1 - (q * p + s))) by lia.
    by apply take_S_r. }
  destruct (lookup_lt_is_Some_2 (poker.player_card g0) s) as [hand0 Hhand0];
    [done|].
  destruct (Hdealt s hand0 Hhand0) as (dealt & Hhand & Hdlen & Hdeach).
  rewrite decide_False in Hdlen by lia.
  eexists _, _. split.
  { apply deal_body_step; [exact Hsnoc|by rewrite Nat2Z.id]. }
  rewrite Nat2Z.id, Hplayers, uint_small by lia.
  assert (Hnew : ∀ (i : nat) hand,
    poker.player_card g0 !! i = Some hand →
    ∃ dealt',
      <[s := (hand0 ++ dealt) ++ [c]]> (poker.player_card g) !! i
      = Some (hand ++ dealt')
      ∧ length dealt' = (if decide (i < S s)%nat then S q else q)
      ∧ ∀ r : nat, (r < length dealt')%nat →
          dealt' !! r = poker.pile g0 !! (n - 1 - (r * p + i))%nat).
  { intros i hand Hi. destruct (decide (i = s)) as [->|Hne].
    - rewrite Hhand0 in Hi. injection Hi as <-.
      exists (dealt ++ [c]).
      rewrite list_lookup_insert_eq by (rewrite Hhands; lia).
      split; [by rewrite app_assoc|].
      split.
      { rewrite length_app, Hdlen, decide_True by lia. simpl. lia. }
      intros r Hr. rewrite length_app in Hr. simpl in Hr.
      destruct (decide (r = q)) as [->|Hrq].
      + rewrite lookup_app_r by lia.
        rewrite Hdlen, Nat.sub_diag. simpl. by rewrite <- Hc.
      + rewrite lookup_app_l by lia. apply Hdeach. lia.
    - rewrite list_lookup_insert_ne by done.
      destruct (Hdealt i hand Hi) as (d & Hd & Hl & Hr).
      exists d. split_and!; [done| |done].
      rewrite Hl. repeat case_decide; lia. }
  destruct (decide (S s < p)%nat) as [Hnext|Hlast].
  - destruct (Z.geb_spec (Z.of_nat s + 1) (poker.players g0)); [lia|].
    split_and!; simpl.
    + lia.
    + done.
    + f_equal. lia.
    + by rewrite length_insert.
    + exact Hnew.
  - destruct (Z.geb_spec (Z.of_nat s + 1) (poker.players g0)); [|lia].
    split_and!; simpl.
    + done.
    + done.
    + f_equal. lia.
    + by rewrite length_insert.
    + intros i hand Hi.
      destruct (Hnew i hand Hi) as (d & Hd & Hl & Hr).
      apply lookup_lt_Some in Hi.
      exists d. split_and!; [done| |done].
      rewrite Hl. repeat case_decide; lia.
Qed.

Lemma deal_loop_inv (g0 : poker.t) (k : nat) :
  poker.wf g0 →
  ∀ (q s : nat) (player_no : Z) (g : poker.t),
    aux.deal_inv g0 q s player_no g →
    (s < length (poker.player_card g0))%nat →
    (q * length (poker.player_card g0) + s + k ≤ length (poker.pile g0))%nat →
    ∃ (q' s' : nat) player_no' g',
      repeat_loop k poker.deal_body player_no g = Ret player_no' g'
      ∧ aux.deal_inv g0 q' s' player_no' g'
      ∧ (s' < length (poker.player_card g0))%nat
      ∧ (q' * length (poker.player_card g0) + s'
         = q * length (poker.player_card g0) + s + k)%nat.
Proof.
  intros Hwf. induction k as [|k IH]; intros q s player_no g Hinv Hs Hk.
  - exists q, s, player_no, g. split_and!; [done..|lia].
  - destruct (deal_body_inv g0 g q s player_no Hwf Hinv Hs)
      as (player_no1 & g1 & Hstep & Hinv1); [lia|].
    simpl. unfold bind. rewrite Hstep.
    destruct (decide (S s < length (poker.player_card g0))%nat).
    + destruct (IH q (S s) player_no1 g1 Hinv1) as (q' & s' & pn' & g' & ?);
        [lia..|].
      exists q', s', pn', g'. intuition lia.
    + destruct (IH (S q) 0%nat player_no1 g1 Hinv1) as (q' & s' & pn' & g' & ?);
        [lia..|].
      exists q', s', pn', g'. intuition lia.
Qed.

(** X19. [deal] where the product does not wrap.  On a table with
    [player_card.size() == players], when [k * players] is below
    [2 ^ 32] (it is computed in [unsigned int]) and the pile holds at
    least that many cards,
    [deal(k)] returns; the pile has lost its last [k * players] cards;
    and hand [i] has gained [k] cards, the [r]-th of them being the
    card popped in turn [r * players + i] from the end of the pile. *)
Theorem deal_spec (g : poker.t) (k : Z) :
  poker.wf g → 0 ≤ k →
  k * poker.players g < 2 ^ 32 →
  k * poker.players g ≤ deck.size (poker.pile g) →
  ∃ g', poker.deal k g = Ret () g' ∧ aux.dealt_round_robin g k g'.
Proof.
  intros Hwf Hk Hsmall Hpile.
  pose proof Hwf as [Hp Hlen]. unfold deck.size in Hpile.
  set (p := length (poker.player_card g)) in *.
  set (n := length (poker.pile g)) in *.
  assert (Hinit : aux.deal_inv g 0 0 0 g).
  { split_and!; [done|done| |done|].
    - fold p n. rewrite take_ge; [done|]. fold n. lia.
    - intros i hand Hi. exists []. rewrite app_nil_r.
      split_and!; [done|done|]. simpl. lia. }
  assert (Hsteps : Z.to_nat (k * poker.players g) = (Z.to_nat k * p)%nat).
  { rewrite <- Hlen. rewrite Z2Nat.inj_mul by lia. by rewrite Nat2Z.id. }
  destruct (deal_loop_inv g (Z.to_nat (k * poker.players g)) Hwf
              0%nat 0%nat 0 g Hinit)
    as (q' & s' & pn' & g' & Hloop & Hinv & Hs' & Hcount);
    [fold p; lia|fold p n; lia|].
  fold p in Hs', Hcount. rewrite Hsteps in Hcount.
  assert (q' = Z.to_nat k ∧ s' = 0%nat) as [-> ->].
  { apply (Nat.div_mod_unique p); lia. }
  exists g'. split.
  { unfold poker.deal, bind, gets.
    rewrite uint_small by nia. by rewrite Hloop. }
  destruct Hinv as (_ & Hplayers & Hpile' & Hhands & Hdealt).
  fold p n in Hpile', Hhands, Hdealt.
  rewrite Nat.add_0_r in Hpile'.
  unfold aux.dealt_round_robin. fold p n. split_and!; [done|done| |done|].
  - unfold deck.size. rewrite Hpile', length_take. fold n. nia.
  - intros i hand Hi.
    destruct (Hdealt i hand Hi) as (dealt & Hd & Hl & Hr).
    rewrite decide_False in Hl by lia.
    exists dealt. split_and!; [done|lia|done].
Qed.

(** The deal of the demo: [poker game(1, 4, false); game.deal(13);]. *)
Lemma deal_spec_witness :
  ∃ g', poker.deal 13 (aux.built 1 4 false) = Ret () g'
        ∧ aux.dealt_round_robin (aux.built 1 4 false) 13 g'.
Proof.
  apply deal_spec.
  - split; simpl; lia.
  - lia.
  - simpl. lia.
  - vm_compute. discriminate.
Defined.

Lemma deal_wraps (g : poker.t) (k : Z) :
  uint (k * poker.players g) = 0 → poker.deal k g = Ret () g.
Proof.
  intros Hwrap. unfold poker.deal, bind, gets. by rewrite Hwrap.
Qed.

Lemma deal_wraps_refutes (g : poker.t) (k : Z) :
  poker.wf g → 0 < k < 2 ^ 32 →
  uint (k * poker.players g) = 0 →
  k * poker.players g ≤ deck.size (poker.pile g) →
  ¬ aux.deal_deals g k.
Proof.
  intros Hwf Hk Hwrap Hpile Hclaim.
  destruct Hclaim as (g' & Hdeal & Hrr); [done|lia|done|].
  rewrite deal_wraps in Hdeal by done.
  injection Hdeal as <-.
  destruct Hrr as (_ & _ & Hsize & _).
  destruct Hwf as [Hp _]. nia.
Qed.

(** C3 at [poker game(82595525, 2, false); game.deal(2147483648);].
    The constructor returns a table of two players and
    [82595525 * 52 = 2 ^ 32 + 4] cards, so the pile holds the
    [2 ^ 31 * 2] cards the deal asks for; [card_per_person *= players]
    is computed in [unsigned int] and gives [2 ^ 32 mod 2 ^ 32 = 0], the
    loop does not run, and [deal] returns the table as it was: no hand
    has gained a card, against "deal some card to each person" and the
    round-robin deal of [card_per_person] cards to each. *)
Theorem deal_wraps_on_built :
  poker.ctor 82595525 2 false = Ret () (aux.built 82595525 2 false)
  ∧ deck.size (poker.pile (aux.built 82595525 2 false)) = 2 ^ 32 + 4
  ∧ 2 ^ 31 * poker.players (aux.built 82595525 2 false)
    ≤ deck.size (poker.pile (aux.built 82595525 2 false))
  ∧ poker.deal (2 ^ 31) (aux.built 82595525 2 false)
    = Ret () (aux.built 82595525 2 false)
  ∧ ¬ aux.deal_deals (aux.built 82595525 2 false) (2 ^ 31).
Proof.
  assert (Hsize : deck.size (poker.pile (aux.built 82595525 2 false))
                  = 2 ^ 32 + 4).
  { rewrite built_size by lia. unfold Z.b2z. lia. }
  assert (Hplayers : poker.players (aux.built 82595525 2 false) = 2)
    by reflexivity.
  assert (Hwrap : uint (2 ^ 31 * poker.players (aux.built 82595525 2 false))
                  = 0).
  { rewrite Hplayers. vm_compute. reflexivity. }
  split_and!.
  - apply ctor_built. lia.
  - exact Hsize.
  - rewrite Hsize, Hplayers. lia.
  - apply deal_wraps. exact Hwrap.
  - apply deal_wraps_refutes; [apply built_wf; lia|lia|exact Hwrap|].
    rewrite Hsize, Hplayers. lia.
Qed.

(** ** poker::shuffle *)

Lemma swap_ret (pile : deck.t) (a b : Z) (x y : card.t) :
  pile !! Z.to_nat a = Some x → pile !! Z.to_nat b = Some y →
  poker.swap a b pile
  = Ret () (<[Z.to_nat b := x]> (<[Z.to_nat a := y]> pile)).
Proof.
  intros Ha Hb. unfold poker.swap, bind, deck.at_, deck.set_at.
  rewrite Ha, Hb, Ha.
  destruct (lookup_lt_is_Some_2 (<[Z.to_nat a := y]> pile) (Z.to_nat b))
    as [z ->]; [|done].
  rewrite length_insert. by eapply lookup_lt_Some.
Qed.

Lemma swap_inv (pile : deck.t) (a b : Z) (r : outcome deck.t ()) :
  poker.swap a b pile = r →
  match r with
  | Ret _ pile' => pile' ≡ₚ pile
  | Exc _ _ => False
  | UB => ¬ (Z.to_nat a < length pile ∧ Z.to_nat b < length pile)%nat
  end.
Proof.
  intros <-.
  destruct (pile !! Z.to_nat a) as [x|] eqn:Ha.
  - destruct (pile !! Z.to_nat b) as [y|] eqn:Hb.
    + rewrite (swap_ret pile a b x y) by done.
      by apply Permutation_insert_swap.
    + unfold poker.swap, bind, deck.at_. rewrite Ha, Hb.
      apply lookup_ge_None in Hb. lia.
  - unfold poker.swap, bind, deck.at_. rewrite Ha.
    apply lookup_ge_None in Ha. lia.
Qed.

Lemma drawable_in_range (g : poker.t) (x : Z) :
  1 ≤ deck.size (poker.pile g) →
  poker.unif_floor (poker.shuffle_sz g) x = true →
  (Z.to_nat x < length (poker.pile g))%nat.
Proof.
  unfold poker.unif_floor, poker.shuffle_sz, uint, to_unsigned, deck.size.
  intros Hsize Hx.
  pose proof (Z.mod_pos_bound (Z.of_nat (length (poker.pile g))) (2 ^ 32)).
  pose proof (Z.mod_le (Z.of_nat (length (poker.pile g))) (2 ^ 32)).
  destruct (Z.eqb_spec (Z.of_nat (length (poker.pile g)) mod 2 ^ 32) 0).
  - apply Z.eqb_eq in Hx. lia.
  - apply andb_true_iff in Hx as [Hlo Hhi].
    apply Z.leb_le in Hlo. apply Z.ltb_lt in Hhi. lia.
Qed.

Lemma redraw_Forall (P : Z → Prop) (a b : Z) (rs rs' : list Z) :
  poker.redraw a rs = Some (b, rs') → Forall P rs → P b ∧ Forall P rs'.
Proof.
  intros Hredraw Hrs. induction Hrs as [|c rs Hc Hrs IH]; [done|].
  simpl in Hredraw. destruct (a =? c); [by apply IH|].
  by injection Hredraw as <- <-.
Qed.

Lemma redraw_app_Some (a b : Z) (rs rs' more : list Z) :
  poker.redraw a rs = Some (b, rs') →
  poker.redraw a (rs ++ more) = Some (b, rs' ++ more).
Proof.
  induction rs as [|c rs IH]; simpl; [done|].
  destruct (a =? c); [done|]. by intros [= <- <-].
Qed.

Lemma redraw_app_None (a b : Z) (rs more : list Z) :
  poker.redraw a rs = None → a ≠ b →
  poker.redraw a (rs ++ b :: more) = Some (b, more).
Proof.
  intros Hredraw Hab. induction rs as [|c rs IH]; simpl in *.
  - by destruct (Z.eqb_spec a b).
  - destruct (a =? c); [by apply IH|done].
Qed.

(** The loop of [shuffle] on draws that are indices of the pile: when
    it ends, it has permuted the pile and touched nothing else. *)
Lemma shuffle_loop_perm (time : nat) :
  ∀ (rs : list Z) (g : poker.t) (r : outcome poker.t ()),
    Forall (λ x, (Z.to_nat x < length (poker.pile g))%nat) rs →
    poker.shuffle_loop time rs g = Some r →
    ∃ g', r = Ret () g'
          ∧ poker.pile g' ≡ₚ poker.pile g
          ∧ poker.players g' = poker.players g
          ∧ poker.player_card g' = poker.player_card g.
Proof.
  induction time as [|time IH]; intros rs g r Hrs Hloop; simpl in Hloop.
  { injection Hloop as <-. by exists g. }
  destruct rs as [|a rs1]; [done|].
  apply Forall_cons in Hrs as [Ha Hrs1].
  destruct (poker.redraw a rs1) as [[b rs2]|] eqn:Hredraw; [|done].
  destruct (redraw_Forall _ _ _ _ _ Hredraw Hrs1) as [Hb Hrs2].
  unfold poker.on_pile in Hloop.
  pose proof (swap_inv (poker.pile g) a b _ eq_refl) as Hswap.
  destruct (poker.swap a b (poker.pile g)) as [[] pile'| |]; [|done|tauto].
  apply IH in Hloop as (g' & -> & Hperm & Hplayers & Hhands).
  - exists g'. simpl in *. by rewrite Hperm, Hswap.
  - eapply Forall_impl; [exact Hrs2|].
    intros x Hx. simpl. by rewrite Hswap.
Qed.

Lemma redraw_same (a : Z) (rs : list Z) :
  Forall (λ b, b = a) rs → poker.redraw a rs = None.
Proof.
  induction 1 as [|b rs -> _ IH]; simpl; [done|].
  by rewrite Z.eqb_refl.
Qed.

Lemma shuffle_loop_zero_one (time : nat) (g : poker.t) :
  (2 ≤ length (poker.pile g))%nat →
  ∃ g', poker.shuffle_loop time (concat (replicate time [0; 1])) g
        = Some (Ret () g').
Proof.
  revert g. induction time as [|time IH]; intros g Hlen; simpl.
  { by exists g. }
  destruct (lookup_lt_is_Some_2 (poker.pile g) 0) as [x Hx]; [lia|].
  destruct (lookup_lt_is_Some_2 (poker.pile g) 1) as [y Hy]; [lia|].
  unfold poker.on_pile.
  rewrite (swap_ret (poker.pile g) 0 1 x y) by done.
  apply IH. simpl. rewrite !length_insert. done.
Qed.

Lemma unif_floor_degenerate (sz x : Z) :
  sz < 2 → poker.unif_floor sz x = true → x = 0.
Proof.
  unfold poker.unif_floor. intros Hsz Hx.
  destruct (Z.eqb_spec sz 0).
  - by apply Z.eqb_eq in Hx.
  - apply andb_true_iff in Hx as [Hlo Hhi].
    apply Z.leb_le in Hlo. apply Z.ltb_lt in Hhi. lia.
Qed.

Lemma shuffle_sz_small (g : poker.t) :
  deck.size (poker.pile g) < 2 ^ 32 →
  poker.shuffle_sz g = deck.size (poker.pile g).
Proof.
  intros Hsize. apply uint_small. unfold deck.size in *. lia.
Qed.

Lemma shuffle_spins (g : poker.t) (time : Z) (rs : list Z) :
  poker.shuffle_sz g < 2 → 1 ≤ time →
  aux.drawable g rs → poker.shuffle time rs g = None.
Proof.
  intros Hsz Hone Hrs. unfold poker.shuffle.
  destruct (Z.to_nat time) as [|n] eqn:Hn; [lia|]. simpl.
  destruct rs as [|a rs1]; [done|].
  apply Forall_cons in Hrs as [Ha Hrs1].
  apply unif_floor_degenerate in Ha as ->; [|done].
  rewrite redraw_same; [done|].
  eapply Forall_impl; [exact Hrs1|].
  intros b Hb. by apply unif_floor_degenerate in Hb.
Qed.

Lemma zero_one_drawable (sz : Z) (rs : list Z) :
  2 ≤ sz → Forall (λ x, x = 0 ∨ x = 1) rs →
  Forall (λ x, poker.unif_floor sz x = true) rs.
Proof.
  intros Hsz Hrs. eapply Forall_impl; [exact Hrs|].
  intros x Hx. simpl in *. unfold poker.unif_floor.
  destruct (Z.eqb_spec sz 0); [lia|].
  apply andb_true_iff. split; [apply Z.leb_le|apply Z.ltb_lt]; lia.
Qed.

(** Whatever the generator has yielded, it can go on so that the loop
    of [shuffle] ends: a draw other than [a] ends the redraw loop that
    is running, and [0, 1, 0, 1, ...] carries the rounds left. *)
Lemma shuffle_loop_extend (time : nat) :
  ∀ (rs : list Z) (g : poker.t),
    (2 ≤ length (poker.pile g))%nat →
    Forall (λ x, (Z.to_nat x < length (poker.pile g))%nat) rs →
    ∃ more,
      Forall (λ x, x = 0 ∨ x = 1) more
      ∧ ∃ g', poker.shuffle_loop time (rs ++ more) g = Some (Ret () g').
Proof.
  induction time as [|time IH]; intros rs g Hlen Hrs.
  { exists []. split; [done|]. by exists g. }
  assert (Hzo : Forall (λ x, x = 0 ∨ x = 1) (concat (replicate time [0; 1]))).
  { apply Forall_concat, Forall_replicate.
    rewrite !Forall_cons, Forall_nil. lia. }
  destruct rs as [|a rs1].
  { exists (concat (replicate (S time) [0; 1])). split.
    - simpl. rewrite !Forall_cons. auto.
    - by apply shuffle_loop_zero_one. }
  apply Forall_cons in Hrs as [Ha Hrs1].
  destruct (lookup_lt_is_Some_2 (poker.pile g) (Z.to_nat a)) as [x Hx];
    [done|].
  destruct (poker.redraw a rs1) as [[b rs2]|] eqn:Hredraw.
  - destruct (redraw_Forall _ _ _ _ _ Hredraw Hrs1) as [Hb Hrs2].
    destruct (lookup_lt_is_Some_2 (poker.pile g) (Z.to_nat b)) as [y Hy];
      [done|].
    destruct (IH rs2
                (poker.mk (poker.players g)
                   (<[Z.to_nat b := x]> (<[Z.to_nat a := y]> (poker.pile g)))
                   (poker.player_card g)))
      as (more & Hmore & g' & Hloop).
    { simpl. by rewrite !length_insert. }
    { simpl. by rewrite !length_insert. }
    exists more. split; [done|]. exists g'. simpl.
    rewrite (redraw_app_Some _ _ _ _ more Hredraw).
    unfold poker.on_pile. by rewrite (swap_ret _ _ _ x y).
  - set (b := if decide (a = 0) then 1 else 0).
    assert (a ≠ b) by (unfold b; case_decide; lia).
    destruct (lookup_lt_is_Some_2 (poker.pile g) (Z.to_nat b)) as [y Hy].
    { unfold b. case_decide; simpl; lia. }
    exists (b :: concat (replicate time [0; 1])). split.
    { constructor; [unfold b; case_decide; auto|done]. }
    simpl. rewrite redraw_app_None by done.
    unfold poker.on_pile. rewrite (swap_ret _ _ _ x y) by done.
    apply shuffle_loop_zero_one. simpl. by rewrite !length_insert.
Qed.

(** C5. On a pile of at least two cards, for every repeat count and
    every sequence of draws the distribution can yield, a [shuffle]
    that comes to its end returns normally and leaves the pile a
    permutation of what it was, the hands and [players] untouched.
    And (when the size fits [unsigned int], so that [sz] is at least 2
    too) whatever has been drawn, the draws can go on so that [shuffle]
    does come to its end. *)
Theorem shuffle_permutation (g : poker.t) (time : Z) (rs : list Z) :
  2 ≤ deck.size (poker.pile g) →
  aux.drawable g rs →
  (∀ r, poker.shuffle time rs g = Some r →
        ∃ g', r = Ret () g'
              ∧ poker.pile g' ≡ₚ poker.pile g
              ∧ poker.players g' = poker.players g
              ∧ poker.player_card g' = poker.player_card g)
  ∧ (2 ≤ poker.shuffle_sz g →
     ∃ more g',
       aux.drawable g (rs ++ more)
       ∧ poker.shuffle time (rs ++ more) g = Some (Ret () g')
       ∧ poker.pile g' ≡ₚ poker.pile g).
Proof.
  intros Hsize Hrs.
  assert (Hrange : ∀ rs', aux.drawable g rs' →
            Forall (λ x, (Z.to_nat x < length (poker.pile g))%nat) rs').
  { intros rs' Hrs'. eapply Forall_impl; [exact Hrs'|].
    intros x Hx. apply drawable_in_range; [lia|done]. }
  split.
  - intros r. apply shuffle_loop_perm. by apply Hrange.
  - intros Hsz.
    destruct (shuffle_loop_extend (Z.to_nat time) rs g) as (more & Hmore & g' & Hloop).
    { unfold deck.size in Hsize. lia. }
    { by apply Hrange. }
    assert (Hall : aux.drawable g (rs ++ more)).
    { apply Forall_app. split; [done|]. by apply zero_one_drawable. }
    exists more, g'. split_and!; [done|done|].
    apply shuffle_loop_perm in Hloop as (g'' & [= <-] & Hperm & _);
      [done|by apply Hrange].
Qed.

(** Three swaps on the 52 cards of the demo; the draws 5, 5 and 2, 2, 2
    are redrawn. *)
Lemma shuffle_permutation_witness :
  ∃ g', poker.shuffle 3 [0; 1; 5; 5; 7; 2; 2; 2; 3] (aux.built 1 4 false)
        = Some (Ret () g')
        ∧ poker.pile g' ≡ₚ poker.pile (aux.built 1 4 false).
Proof.
  destruct (poker.shuffle 3 [0; 1; 5; 5; 7; 2; 2; 2; 3] (aux.built 1 4 false))
    as [r|] eqn:Hshuffle; [|vm_compute in Hshuffle; discriminate].
  destruct (shuffle_permutation (aux.built 1 4 false) 3
              [0; 1; 5; 5; 7; 2; 2; 2; 3]) as [Hperm _].
  - vm_compute. discriminate.
  - unfold aux.drawable. repeat constructor.
  - destruct (Hperm r Hshuffle) as (g' & -> & Hpile & _). by exists g'.
Defined.

(** X20. The redraw loop of [shuffle].  The bound of the draws is
    [unsigned int sz = pile.size()], the size of the pile modulo
    [2 ^ 32], which is the size itself below [2 ^ 32].  When [sz] is at
    least 2, for every repeat count there are draws on which every
    redraw loop ends and [shuffle] returns; when [sz] is below 2 and the
    repeat count at least 1, on no sequence of draws, however long, does
    [shuffle] come to its end. *)
Theorem shuffle_termination (g : poker.t) (time : Z) :
  0 ≤ time →
  (deck.size (poker.pile g) < 2 ^ 32 →
   poker.shuffle_sz g = deck.size (poker.pile g))
  ∧ (2 ≤ poker.shuffle_sz g →
     aux.drawable g (aux.zero_one time)
     ∧ ∃ g', poker.shuffle time (aux.zero_one time) g = Some (Ret () g'))
  ∧ (poker.shuffle_sz g < 2 → 1 ≤ time →
     ∀ rs, aux.drawable g rs → poker.shuffle time rs g = None).
Proof.
  intros Htime. split_and!.
  - apply shuffle_sz_small.
  - intros Hsz. split.
    + unfold aux.drawable, aux.zero_one.
      apply Forall_concat, Forall_replicate.
      unfold poker.unif_floor.
      destruct (Z.eqb_spec (poker.shuffle_sz g) 0); [lia|].
      repeat constructor; apply andb_true_iff; split;
        (apply Z.leb_le || apply Z.ltb_lt); lia.
    + apply shuffle_loop_zero_one.
      unfold poker.shuffle_sz, uint, to_unsigned, deck.size in Hsz.
      pose proof (Z.mod_le (Z.of_nat (length (poker.pile g))) (2 ^ 32)).
      lia.
  - intros Hsz Hone rs Hrs. by apply shuffle_spins.
Qed.

(** The shuffle of the demo, [game.shuffle()] with its 1000 rounds on
    52 cards, and a shuffle of a pile of one card. *)
Lemma shuffle_termination_witness :
  (∃ g', poker.shuffle 1000 (aux.zero_one 1000) (aux.built 1 4 false)
         = Some (Ret () g'))
  ∧ poker.shuffle 1 [0; 0; 0; 0] aux.one_card = None.
Proof.
  split.
  - destruct (shuffle_termination (aux.built 1 4 false) 1000) as (_ & Hends & _);
      [lia|].
    apply Hends. vm_compute. discriminate.
  - destruct (shuffle_termination aux.one_card 1) as (_ & _ & Hspins); [lia|].
    apply Hspins; [done|lia|].
    unfold aux.drawable. by repeat constructor.
Defined.

(** C6 at [poker game(1073741824, 1, false); game.shuffle(1);].  The
    constructor returns a pile of [2 ^ 30 * 52 = 13 * 2 ^ 32] cards;
    [unsigned int sz = pile.size()] narrows the size to
    [13 * 2 ^ 32 mod 2 ^ 32 = 0], the distribution on [0.0, 0.0) yields
    0 only, so [a == b] at every redraw: on no sequence of draws does
    [shuffle], for a repeat count of 1 or more, come to its end, though
    the pile holds far more than 2 cards. *)
Theorem shuffle_spins_on_built :
  poker.ctor (2 ^ 30) 1 false = Ret () (aux.built (2 ^ 30) 1 false)
  ∧ deck.size (poker.pile (aux.built (2 ^ 30) 1 false)) = 13 * 2 ^ 32
  ∧ poker.shuffle_sz (aux.built (2 ^ 30) 1 false) = 0
  ∧ (∀ (time : Z) (rs : list Z),
       1 ≤ time → aux.drawable (aux.built (2 ^ 30) 1 false) rs →
       poker.shuffle time rs (aux.built (2 ^ 30) 1 false) = None)
  ∧ ¬ aux.shuffle_can_return (aux.built (2 ^ 30) 1 false) 1.
Proof.
  assert (Hsize : deck.size (poker.pile (aux.built (2 ^ 30) 1 false))
                  = 13 * 2 ^ 32).
  { rewrite built_size by lia. unfold Z.b2z. lia. }
  assert (Hsz : poker.shuffle_sz (aux.built (2 ^ 30) 1 false) = 0).
  { unfold poker.shuffle_sz. rewrite Hsize. vm_compute. reflexivity. }
  split_and!.
  - apply ctor_built. lia.
  - exact Hsize.
  - exact Hsz.
  - intros time rs Htime Hrs. apply shuffle_spins; [lia|done|done].
  - intros Hclaim. destruct Hclaim as (rs & g' & Hrs & Hshuffle); [lia|].
    rewrite shuffle_spins in Hshuffle; [discriminate|lia|lia|exact Hrs].
Qed.

(** ** The number of cards on the table *)

Lemma hands_size_insert (hands : list deck.t) (i : nat) (hand hand' : deck.t) :
  hands !! i = Some hand →
  foldr (λ d n, deck.size d + n) 0 (<[i := hand']> hands)
  = foldr (λ d n, deck.size d + n) 0 hands - deck.size hand + deck.size hand'.
Proof.
  revert i. induction hands as [|d hands IH]; intros [|i] Hi; simpl in *;
    try done.
  - injection Hi as ->. lia.
  - rewrite (IH i Hi). lia.
Qed.

Lemma move_total (g : poker.t) (i : nat) (rest hand : deck.t) (c : card.t) :
  poker.pile g = rest ++ [c] →
  poker.player_card g !! i = Some hand →
  poker.total (poker.mk (poker.players g) rest
                 (<[i := hand ++ [c]]> (poker.player_card g)))
  = poker.total g.
Proof.
  intros Hpile Hhand. unfold poker.total. simpl.
  rewrite (hands_size_insert _ _ hand) by done.
  rewrite Hpile. unfold deck.size. rewrite !length_app. simpl. lia.
Qed.

Lemma deal_body_total (g g' : poker.t) (player_no player_no' : Z) :
  poker.deal_body player_no g = Ret player_no' g' →
  poker.total g' = poker.total g.
Proof.
  intros Hbody.
  destruct (last (poker.pile g)) as [c|] eqn:Hlast.
  - apply last_Some in Hlast as [rest Hpile].
    destruct (poker.player_card g !! Z.to_nat player_no) as [hand|] eqn:Hhand.
    + rewrite (deal_body_step g player_no rest hand c) in Hbody by done.
      injection Hbody as _ <-. by apply move_total.
    + unfold poker.deal_body, bind, poker.on_pile at 1, deck.back in Hbody.
      rewrite Hpile, last_snoc in Hbody.
      unfold poker.on_player in Hbody. simpl in Hbody.
      by rewrite Hhand in Hbody.
  - unfold poker.deal_body, bind, poker.on_pile at 1, deck.back in Hbody.
    by rewrite Hlast in Hbody.
Qed.

Lemma deal_total (g g' : poker.t) (k : Z) :
  poker.deal k g = Ret () g' → poker.total g' = poker.total g.
Proof.
  unfold poker.deal, bind, gets.
  generalize (Z.to_nat (uint (k * poker.players g))) as n.
  generalize 0 as player_no. intros player_no n. revert player_no g.
  induction n as [|n IH]; intros player_no g Hloop; simpl in Hloop.
  - by injection Hloop as <-.
  - unfold bind in Hloop.
    destruct (poker.deal_body player_no g) as [pn1 g1| |] eqn:Hbody; try done.
    apply deal_body_total in Hbody. rewrite <- Hbody. by eapply IH.
Qed.

Lemma draw_total (g g' : poker.t) (player_no : Z) (c : card.t) :
  poker.draw player_no g = Ret c g' → poker.total g' = poker.total g.
Proof.
  unfold poker.draw, bind, gets.
  destruct (player_no >=? poker.players g); [done|].
  unfold poker.on_pile at 1, deck.back.
  destruct (last (poker.pile g)) as [c0|] eqn:Hlast; [|done].
  apply last_Some in Hlast as [rest Hpile].
  unfold poker.on_player at 1. simpl.
  destruct (poker.player_card g !! Z.to_nat player_no) as [hand|] eqn:Hhand;
    [|done].
  unfold deck.push_back, modify, poker.on_pile, deck.pop_back. simpl.
  rewrite Hpile, removelast_last.
  replace (match rest ++ [c0] with [] => UB | _ :: _ => Ret () rest end)
    with (Ret (S:=deck.t) () rest) by (by destruct rest).
  unfold poker.on_player. simpl.
  rewrite list_lookup_insert_eq by (by eapply lookup_lt_Some).
  rewrite last_snoc, list_insert_insert_eq.
  intros [= _ <-]. rewrite <- (move_total g _ rest hand c0) by done. done.
Qed.

Lemma play_total (g g' : poker.t) (player_no : Z) (c : card.t) :
  poker.play player_no c g = Ret () g' →
  poker.total g' = poker.total g - 1.
Proof.
  unfold poker.play, bind, gets.
  destruct (player_no >=? poker.players g); [done|].
  unfold poker.on_player.
  destruct (poker.player_card g !! Z.to_nat player_no) as [hand|] eqn:Hhand;
    [|done].
  destruct (decide (c ∈ hand)) as [Hin|Hnotin].
  - apply list_elem_of_split_l in Hin as (before & after & -> & Hbefore).
    rewrite remove_first by done. intros [= <-].
    unfold poker.total. simpl.
    rewrite (hands_size_insert _ _ (before ++ c :: after)) by done.
    unfold deck.size. rewrite !length_app. simpl. lia.
  - by rewrite remove_absent.
Qed.

Lemma shuffle_total (g g' : poker.t) (time : Z) (rs : list Z) :
  poker.shuffle time rs g = Some (Ret () g') →
  poker.total g' = poker.total g.
Proof.
  unfold poker.shuffle. generalize (Z.to_nat time) as n. intros n.
  revert rs g. induction n as [|n IH]; intros rs g Hloop; simpl in Hloop.
  { by injection Hloop as <-. }
  destruct rs as [|a rs1]; [done|].
  destruct (poker.redraw a rs1) as [[b rs2]|]; [|done].
  unfold poker.on_pile in Hloop.
  pose proof (swap_inv (poker.pile g) a b _ eq_refl) as Hswap.
  destruct (poker.swap a b (poker.pile g)) as [[] pile'| |]; [|done..].
  apply IH in Hloop. rewrite Hloop.
  unfold poker.total, deck.size. simpl. by rewrite Hswap.
Qed.

(** Every call that returns keeps the number of cards on the table,
    but [play], which takes one card off it. *)
Lemma run_total (ops : list aux.op) (g g' : poker.t) :
  aux.run ops g = Some g' →
  poker.total g' = poker.total g - aux.plays ops.
Proof.
  revert g.
  induction ops as [|o ops IH]; intros g Hrun; simpl in Hrun.
  { injection Hrun as <-. simpl. lia. }
  destruct o as [time rs|k|i|i c]; simpl.
  - destruct (poker.shuffle time rs g) as [[[] g1| |]|] eqn:Hop; try done.
    apply shuffle_total in Hop. apply IH in Hrun. lia.
  - destruct (poker.deal k g) as [[] g1| |] eqn:Hop; try done.
    apply deal_total in Hop. apply IH in Hrun. lia.
  - destruct (poker.draw i g) as [c g1| |] eqn:Hop; try done.
    apply draw_total in Hop. apply IH in Hrun. lia.
  - destruct (poker.play i c g) as [[] g1| |] eqn:Hop; try done.
    apply play_total in Hop. apply IH in Hrun. lia.
Qed.

(** C1 at [poker game(1, 2, false); game.deal(1);
    game.play(0, card{SPADE, 13});]: the constructor puts 52 cards on
    the table, the deal keeps them, and [play] returns with 51 left:
    the king of spades is in neither the pile nor a hand. *)
Theorem play_destroys_card :
  let g0 := aux.built 1 2 false in
  let g1 := poker.mk 2 (take 50 (aux.fresh_deck false))
              [[card.mk SPADE 13]; [card.mk SPADE 12]] in
  let g2 := poker.mk 2 (take 50 (aux.fresh_deck false))
              [[]; [card.mk SPADE 12]] in
  poker.ctor 1 2 false = Ret () g0
  ∧ poker.deal 1 g0 = Ret () g1
  ∧ poker.play 0 (card.ctor SPADE 13) g1 = Ret () g2
  ∧ poker.total g0 = 52
  ∧ poker.total g1 = 52
  ∧ poker.total g2 = 51
  ∧ card.ctor SPADE 13 ∉ poker.pile g2 ++ concat (poker.player_card g2).
Proof.
  split_and!; try (vm_compute; reflexivity).
  vm_compute. intros Hin.
  repeat (apply elem_of_cons in Hin as [[=]|Hin]).
  by apply elem_of_nil in Hin.
Qed.

(** ** deck::sort *)

(** Case analysis on the integer tests of a comparator. *)
Ltac comp_cases :=
  repeat match goal with
  | |- context [?x =? ?y] => destruct (Z.eqb_spec x y)
  | |- context [?x >? ?y] => destruct (Z.gtb_spec x y)
  | H : context [?x =? ?y] |- _ => destruct (Z.eqb_spec x y)
  | H : context [?x >? ?y] |- _ => destruct (Z.gtb_spec x y)
  end;
  simpl in *; try done; try lia.

Section rank_first.

Local Abbreviation comp := deck.comp_rank_first.

Lemma comp_rank_first_irrefl (a : card.t) : comp a a = false.
Proof. unfold comp. comp_cases. Qed.

Lemma comp_rank_first_asym (a b : card.t) :
  comp a b = true → comp b a = false.
Proof. unfold comp. comp_cases. Qed.

Lemma comp_rank_first_trans (a b c : card.t) :
  comp a b = true → comp b c = true → comp a c = true.
Proof. unfold comp. comp_cases. Qed.

Lemma comp_rank_first_neg_trans (a b c : card.t) :
  comp a b = false → comp b c = false → comp a c = false.
Proof. unfold comp. comp_cases. Qed.

Lemma comp_rank_first_connected (a b : card.t) :
  comp a b = false → comp b a = false → a = b.
Proof.
  destruct a as [sa na], b as [sb nb]. unfold comp; simpl.
  intros Hab Hba.
  assert (na = nb ∧ sa = sb) as [-> ->]; [|done].
  revert Hab Hba. comp_cases.
Qed.

Global Instance may_precede_rank_first_trans :
  Transitive (may_precede comp).
Proof.
  intros a b c Hab Hbc. unfold may_precede in *.
  by apply (comp_rank_first_neg_trans c b a).
Qed.

Global Instance may_precede_rank_first_total : Total (may_precede comp).
Proof.
  intros a b. unfold may_precede.
  destruct (comp b a) eqn:Hba; [right|by left].
  by apply comp_rank_first_asym.
Qed.

Global Instance may_precede_rank_first_antisymm :
  AntiSymm (=) (may_precede comp).
Proof. intros a b Hab Hba. by apply comp_rank_first_connected. Qed.

Lemma strict_weak_on_rank_first (pile : deck.t) :
  strict_weak_on comp pile = true.
Proof.
  unfold strict_weak_on. rewrite !andb_true_iff. split_and!.
  - apply forallb_forall. intros a _. by rewrite comp_rank_first_irrefl.
  - apply forallb_forall. intros a _. apply forallb_forall. intros b _.
    apply forallb_forall. intros c _.
    destruct (comp a b) eqn:Hab; [|done].
    destruct (comp b c) eqn:Hbc; [|done].
    by rewrite (comp_rank_first_trans a b c).
  - apply forallb_forall. intros a _. apply forallb_forall. intros b _.
    apply forallb_forall. intros c _. unfold equiv.
    destruct (comp a b) eqn:Hab; [done|].
    destruct (comp b a) eqn:Hba; [done|].
    destruct (comp b c) eqn:Hbc; [done|].
    destruct (comp c b) eqn:Hcb; [done|].
    rewrite (comp_rank_first_neg_trans a b c) by done.
    by rewrite (comp_rank_first_neg_trans c b a).
Qed.

Lemma sort_rank_first_ret (pile : deck.t) :
  deck.sort deck.rank_first_descending pile
  = Ret () (merge_sort (may_precede comp) pile).
Proof.
  unfold deck.sort, std_sort. by rewrite strict_weak_on_rank_first.
Qed.

(** Whatever sorted permutation of the deck [std::sort] leaves, it is
    the one the embedding computes. *)
Lemma sort_rank_first_unique (pile pile' : deck.t) :
  pile' ≡ₚ pile → sorted_by comp pile' →
  deck.sort deck.rank_first_descending pile = Ret () pile'.
Proof.
  intros Hperm Hsorted. rewrite sort_rank_first_ret. f_equal.
  apply (StronglySorted_unique (may_precede comp)).
  - apply StronglySorted_merge_sort; apply _.
  - exact Hsorted.
  - by rewrite merge_sort_Permutation.
Qed.

(** [sort(rank_first_descending)] returns a sorted permutation of the
    deck, whatever the deck, and leaves a sorted deck as it is. *)
Lemma sort_rank_first_spec (pile : deck.t) :
  ∃ pile',
    deck.sort deck.rank_first_descending pile = Ret () pile'
    ∧ pile' ≡ₚ pile
    ∧ sorted_by comp pile'
    ∧ deck.sort deck.rank_first_descending pile' = Ret () pile'.
Proof.
  exists (merge_sort (may_precede comp) pile).
  assert (Hsorted : sorted_by comp (merge_sort (may_precede comp) pile))
    by (apply StronglySorted_merge_sort; apply _).
  split_and!.
  - apply sort_rank_first_ret.
  - apply merge_sort_Permutation.
  - exact Hsorted.
  - by apply sort_rank_first_unique.
Qed.

End rank_first.

Lemma sorted_by_lookup {A} (comp : A → A → bool) (l : list A)
    (i j : nat) (x y : A) :
  sorted_by comp l → l !! i = Some x → l !! j = Some y → (i < j)%nat →
  comp y x = false.
Proof.
  intros Hsorted Hi Hj Hij.
  rewrite <- (take_drop j l) in Hsorted.
  apply (StronglySorted_app_1_elem_of _ _ _ x y) in Hsorted; [done| |].
  - apply elem_of_take. eauto.
  - apply list_elem_of_lookup. exists 0%nat.
    by rewrite lookup_drop, Nat.add_0_r.
Qed.

(** C7. The comparator of [rank_first_descending] puts a card of
    number 1 before every card of another number, puts the greater
    number first among two other numbers, and the greater suit first
    among equal numbers.  So sorting a hand that holds an ace [a] and a
    king [k] returns a permutation of the hand in which both occur and
    every position of [a] is before every position of [k]. *)
Theorem ace_before_king (pile : deck.t) (a k : card.t) :
  card.number a = 1 → card.number k = 13 → a ∈ pile → k ∈ pile →
  (∀ x y : card.t,
     deck.comp_rank_first x y
     = if decide (card.number x = card.number y)
       then bool_decide (card.suit x > card.suit y)
       else if decide (card.number x = 1) then true
       else if decide (card.number y = 1) then false
       else bool_decide (card.number x > card.number y))
  ∧ ∃ pile',
      deck.sort deck.rank_first_descending pile = Ret () pile'
      ∧ pile' ≡ₚ pile
      ∧ (∃ i j : nat, pile' !! i = Some a ∧ pile' !! j = Some k)
      ∧ ∀ i j : nat,
          pile' !! i = Some a → pile' !! j = Some k → (i < j)%nat.
Proof.
  intros Ha Hk Hain Hkin. split.
  { intros x y. unfold deck.comp_rank_first.
    repeat case_decide; comp_cases;
      symmetry; (apply bool_decide_eq_true || apply bool_decide_eq_false); lia. }
  destruct (sort_rank_first_spec pile) as (pile' & Hsort & Hperm & Hsorted & _).
  exists pile'. split_and!; [done|done| |].
  - rewrite <- Hperm in Hain, Hkin.
    apply list_elem_of_lookup in Hain as [i Hi], Hkin as [j Hj]. eauto.
  - intros i j Hi Hj.
    assert (Hak : deck.comp_rank_first a k = true).
    { unfold deck.comp_rank_first. rewrite Ha, Hk. done. }
    destruct (Nat.lt_trichotomy i j) as [?|[->|Hji]]; [done| |].
    + rewrite Hi in Hj. injection Hj as ->. lia.
    + pose proof (sorted_by_lookup _ _ _ _ _ _ Hsorted Hj Hi Hji). congruence.
Qed.

(** A hand of king of hearts, ace of clubs, joker, king of spades. *)
Lemma ace_before_king_witness :
  deck.sort deck.rank_first_descending
    [card.mk HEART 13; card.mk CLUB 1; aux.joker; card.mk SPADE 13]
  = Ret () [card.mk CLUB 1; aux.joker; card.mk SPADE 13; card.mk HEART 13].
Proof.
  destruct (ace_before_king
              [card.mk HEART 13; card.mk CLUB 1; aux.joker; card.mk SPADE 13]
              (card.mk CLUB 1) (card.mk SPADE 13))
    as (_ & pile' & Hsort & _); [done|done|by repeat constructor..|].
  rewrite Hsort. vm_compute in Hsort. by injection Hsort as <-.
Defined.

(** A comparator that holds of a value and itself leaves no sorted
    arrangement of a range in which the value stands twice. *)
Lemma twins_never_sorted {A} (comp : A → A → bool) (l l' : list A)
    (i j : nat) (a : A) :
  comp a a = true →
  l !! i = Some a → l !! j = Some a → i ≠ j →
  l' ≡ₚ l → ¬ sorted_by comp l'.
Proof.
  intros Ha Hi Hj Hij Hperm Hsorted.
  symmetry in Hperm.
  apply Permutation_inj in Hperm as (_ & f & Hf & Hlookup).
  rewrite Hlookup in Hi, Hj.
  assert (f i ≠ f j) by (intros Heq; by apply Hf in Heq).
  destruct (Nat.lt_trichotomy (f i) (f j)) as [Hlt|[?|Hlt]]; [|done|].
  - pose proof (sorted_by_lookup comp l' _ _ _ _ Hsorted Hi Hj Hlt). congruence.
  - pose proof (sorted_by_lookup comp l' _ _ _ _ Hsorted Hj Hi Hlt). congruence.
Qed.

(** C8 at a hand that holds the ace of spades twice, sorted with
    [suit_first_descending]: the comparator holds of the ace and itself
    (of any ace and any card of its suit), so it is no strict weak
    ordering on the hand, no arrangement of the hand is sorted by it,
    and the behaviour of [std::sort] is undefined. *)
Theorem sort_suit_first_undefined :
  deck.comp_suit_first (card.mk SPADE 1) (card.mk SPADE 1) = true
  ∧ (∀ a b, card.number a = 1 → card.suit a = card.suit b →
            deck.comp_suit_first a b = true)
  ∧ strict_weak_on deck.comp_suit_first aux.twin_aces = false
  ∧ deck.sort deck.suit_first_descending aux.twin_aces = UB
  ∧ ∀ pile', pile' ≡ₚ aux.twin_aces → ¬ sorted_by deck.comp_suit_first pile'.
Proof.
  split_and!.
  - done.
  - intros a b Ha Hsuit. unfold deck.comp_suit_first.
    rewrite Ha, Hsuit, Z.eqb_refl. done.
  - vm_compute. reflexivity.
  - vm_compute. reflexivity.
  - intros pile'.
    by apply (twins_never_sorted _ aux.twin_aces _ 1 8 (card.mk SPADE 1)).
Qed.
(** * Further properties *)

(** ** poker::draw *)

Lemma draw_step (g : poker.t) (player_no : Z) (rest hand : deck.t)
    (c : card.t) :
  player_no < poker.players g →
  poker.pile g = rest ++ [c] →
  poker.player_card g !! Z.to_nat player_no = Some hand →
  poker.draw player_no g
  = Ret c (poker.mk (poker.players g) rest
             (<[Z.to_nat player_no := hand ++ [c]]> (poker.player_card g))).
Proof.
  intros Hlt Hpile Hhand. unfold poker.draw, bind, gets.
  destruct (Z.geb_spec player_no (poker.players g)); [lia|].
  unfold poker.on_pile at 1, deck.back. rewrite Hpile, last_snoc.
  unfold poker.on_player at 1. simpl. rewrite Hhand.
  unfold deck.push_back, modify, poker.on_pile, deck.pop_back. simpl.
  rewrite removelast_last.
  replace (match rest ++ [c] with [] => UB | _ :: _ => Ret () rest end)
    with (Ret (S:=deck.t) () rest) by (by destruct rest).
  unfold poker.on_player. simpl.
  rewrite list_lookup_insert_eq by (by eapply lookup_lt_Some).
  by rewrite last_snoc, list_insert_insert_eq.
Qed.

Lemma draw_out_of_range (g : poker.t) (player_no : Z) :
  poker.players g ≤ player_no →
  poker.draw player_no g
  = Exc (out_of_range "The player number is too large") g.
Proof.
  intros Hge. unfold poker.draw, bind, gets.
  by destruct (Z.geb_spec player_no (poker.players g)); [|lia].
Qed.

Lemma draw_empty (g : poker.t) (player_no : Z) :
  player_no < poker.players g → poker.pile g = [] →
  poker.draw player_no g = UB.
Proof.
  intros Hlt Hpile. unfold poker.draw, bind, gets.
  destruct (Z.geb_spec player_no (poker.players g)); [lia|].
  unfold poker.on_pile, deck.back. by rewrite Hpile.
Qed.

(** X1. [draw(i)] for a player number below [players] on a pile that is
    not empty returns the last card of the pile, takes it off the pile
    and puts it at the end of hand [i]; the other hands, the rest of the
    pile and its order are untouched. *)
Theorem draw_spec (g : poker.t) (i : Z) (rest : deck.t) (c : card.t) :
  poker.wf g → 0 ≤ i < poker.players g →
  poker.pile g = rest ++ [c] →
  ∃ hand,
    poker.player_card g !! Z.to_nat i = Some hand
    ∧ poker.draw i g
      = Ret c (poker.mk (poker.players g) rest
                 (<[Z.to_nat i := hand ++ [c]]> (poker.player_card g))).
Proof.
  intros Hwf Hi Hpile.
  destruct (wf_hand g i Hwf Hi) as [hand Hhand].
  exists hand. split; [done|]. apply draw_step; [lia|done..].
Qed.

Lemma draw_spec_witness :
  ∃ g', poker.draw 2 (aux.built 1 4 false) = Ret (card.mk SPADE 13) g'
        ∧ poker.player_card g' = [[]; []; [card.mk SPADE 13]; []]
        ∧ deck.size (poker.pile g') = 51.
Proof.
  destruct (draw_spec (aux.built 1 4 false) 2
              (take 51 (aux.fresh_deck false)) (card.mk SPADE 13))
    as (hand & Hhand & Hdraw).
  - split; simpl; lia.
  - simpl. lia.
  - vm_compute. reflexivity.
  - injection Hhand as <-. eexists. split; [exact Hdraw|]. split; reflexivity.
Defined.

(** X2. The player number is checked before the pile is looked at:
    [draw(j)] for an [unsigned int] [j] not below [players] throws
    [out_of_range] and leaves the table as it was, on an empty pile
    too; with a player number [i] from 0 and below [players], [draw]
    on an empty pile is undefined (it reads [back()] of an empty
    vector). *)
Theorem draw_edges (g : poker.t) (i j : Z) :
  poker.players g ≤ j < 2 ^ 32 → 0 ≤ i < poker.players g →
  poker.draw j g = Exc (out_of_range "The player number is too large") g
  ∧ (poker.pile g = [] → poker.draw i g = UB).
Proof.
  intros Hj Hi. split.
  - apply draw_out_of_range. lia.
  - apply draw_empty. lia.
Qed.

Lemma draw_edges_witness :
  poker.draw 4 (poker.mk 4 [] [[]; []; []; []])
  = Exc (out_of_range "The player number is too large")
      (poker.mk 4 [] [[]; []; []; []])
  ∧ poker.draw 3 (poker.mk 4 [] [[]; []; []; []]) = UB.
Proof.
  destruct (draw_edges (poker.mk 4 [] [[]; []; []; []]) 3 4) as [Hthrow Hub];
    [simpl; lia..|].
  split; [exact Hthrow|by apply Hub].
Defined.

(** ** poker::deal, further *)

Lemma repeat_loop_add {S A} (n m : nat) (body : A → M S A) (acc : A) (s : S) :
  repeat_loop (n + m) body acc s
  = match repeat_loop n body acc s with
    | Ret acc' s' => repeat_loop m body acc' s'
    | Exc e s' => Exc e s'
    | UB => UB
    end.
Proof.
  revert acc s. induction n as [|n IH]; intros acc s; simpl; [done|].
  unfold bind. destruct (body acc s); [apply IH|done..].
Qed.

(** What a turn of the loop of [deal] does, by cases on the pile and on
    the hand. *)
Lemma deal_body_cases (g : poker.t) (player_no : Z) :
  (∃ rest c hand,
     poker.pile g = rest ++ [c]
     ∧ poker.player_card g !! Z.to_nat player_no = Some hand
     ∧ poker.deal_body player_no g
       = Ret (if uint (player_no + 1) >=? poker.players g then 0
              else uint (player_no + 1))
           (poker.mk (poker.players g) rest
              (<[Z.to_nat player_no := hand ++ [c]]> (poker.player_card g))))
  ∨ ((poker.pile g = []
      ∨ poker.player_card g !! Z.to_nat player_no = None)
     ∧ poker.deal_body player_no g = UB).
Proof.
  destruct (last (poker.pile g)) as [c|] eqn:Hlast.
  - apply last_Some in Hlast as [rest Hpile].
    destruct (poker.player_card g !! Z.to_nat player_no) as [hand|] eqn:Hhand.
    + left. exists rest, c, hand. split_and!; [done..|].
      by apply deal_body_step.
    + right. split; [by right|].
      unfold poker.deal_body, bind, poker.on_pile at 1, deck.back.
      rewrite Hpile, last_snoc. unfold poker.on_player. simpl.
      by rewrite Hhand.
  - right. apply last_None in Hlast. split; [by left|].
    unfold poker.deal_body, bind, poker.on_pile at 1, deck.back.
    by rewrite Hlast.
Qed.

(** The loop of [deal] keeps [players] and comes back to player 0
    after every full round. *)
Lemma deal_loop_player (n : nat) :
  ∀ (player_no player_no' : Z) (g g' : poker.t),
    1 ≤ poker.players g < 2 ^ 32 →
    0 ≤ player_no < poker.players g →
    repeat_loop n poker.deal_body player_no g = Ret player_no' g' →
    poker.players g' = poker.players g
    ∧ player_no' = (player_no + Z.of_nat n) mod poker.players g.
Proof.
  induction n as [|n IH]; intros pn pn' g g' Hp Hpn Hloop.
  { injection Hloop as <- <-. split; [done|].
    rewrite Z.add_0_r, Z.mod_small; lia. }
  simpl in Hloop. unfold bind in Hloop.
  destruct (deal_body_cases g pn)
    as [(rest & c & hand & _ & _ & Hstep)|[_ Hstep]];
    rewrite Hstep in Hloop; [|done].
  rewrite uint_small in Hloop by lia.
  apply IH in Hloop as [Hplayers ->]; simpl in *; [|done|].
  - split; [done|].
    destruct (Z.geb_spec (pn + 1) (poker.players g)).
    + assert (pn + 1 = poker.players g) as Heq by lia.
      replace (pn + Z.of_nat (S n)) with (Z.of_nat n + 1 * poker.players g)
        by lia.
      rewrite Z.mod_add by lia. done.
    + f_equal. lia.
  - destruct (Z.geb_spec (pn + 1) (poker.players g)); lia.
Qed.

(** X3. When [k * players] fits [unsigned int] and the pile holds fewer
    cards than that, [deal(k)] has undefined behaviour: it deals the
    whole pile and then reads [back()] of the empty pile. *)
Theorem deal_short_pile (g : poker.t) (k : Z) :
  poker.wf g → 0 ≤ k →
  k * poker.players g < 2 ^ 32 →
  deck.size (poker.pile g) < k * poker.players g →
  poker.deal k g = UB.
Proof.
  intros Hwf Hk Hsmall Hshort. pose proof Hwf as [Hp Hlen].
  unfold deck.size in Hshort.
  set (n := length (poker.pile g)) in *.
  assert (Hinit : aux.deal_inv g 0 0 0 g).
  { split_and!; [done|done| |done|].
    - rewrite take_ge; [done|]. lia.
    - intros i hand Hi. exists []. rewrite app_nil_r.
      split_and!; [done|done|]. simpl. lia. }
  destruct (deal_loop_inv g n Hwf 0%nat 0%nat 0 g Hinit)
    as (q' & s' & pn' & g' & Hloop & Hinv & _ & Hcount); [lia|lia|].
  destruct Hinv as (_ & _ & Hpile' & _).
  replace (length (poker.pile g) - (q' * length (poker.player_card g) + s'))%nat
    with 0%nat in Hpile' by lia.
  rewrite take_0 in Hpile'.
  unfold poker.deal, bind, gets. rewrite uint_small by lia.
  replace (Z.to_nat (k * poker.players g))
    with (n + S (Z.to_nat (k * poker.players g) - n - 1))%nat by lia.
  rewrite repeat_loop_add. fold n in Hloop. rewrite Hloop. simpl.
  unfold bind.
  destruct (deal_body_cases g' pn')
    as [(rest & c & hand & Hnonempty & _)|[_ ->]]; [|done].
  rewrite Hpile' in Hnonempty. by destruct rest.
Qed.

(** [deal(14)] on the 52 cards of the demo and its four players. *)
Lemma deal_short_pile_witness : poker.deal 14 (aux.built 1 4 false) = UB.
Proof.
  apply deal_short_pile.
  - split; simpl; lia.
  - lia.
  - simpl. lia.
  - vm_compute. reflexivity.
Defined.

(** X4. Deals add up: when [(a + b) * players] fits [unsigned int],
    [deal(a)] followed by [deal(b)] does what [deal(a + b)] does (the
    same table, or undefined behaviour when the pile runs out), since
    every deal ends a round and the next one starts at player 0. *)
Theorem deal_deal (g : poker.t) (a b : Z) :
  poker.wf g → 0 ≤ a → 0 ≤ b →
  (a + b) * poker.players g < 2 ^ 32 →
  aux.and_then (poker.deal a g) (poker.deal b) = poker.deal (a + b) g.
Proof.
  intros [Hp _] Ha Hb Hsmall.
  unfold poker.deal at 1 3, bind, gets.
  rewrite !uint_small by nia.
  replace (Z.to_nat ((a + b) * poker.players g))
    with (Z.to_nat (a * poker.players g) + Z.to_nat (b * poker.players g))%nat
    by nia.
  rewrite repeat_loop_add.
  destruct (repeat_loop (Z.to_nat (a * poker.players g)) poker.deal_body 0 g)
    as [pn' g'| |] eqn:Hloop; simpl; [|done..].
  apply deal_loop_player in Hloop as [Hplayers ->]; [|done|lia].
  unfold poker.deal, bind, gets. rewrite Hplayers.
  rewrite uint_small by nia.
  rewrite Z.add_0_l, Z2Nat.id, Z.mod_mul by nia. done.
Qed.

Lemma deal_deal_witness :
  aux.and_then (poker.deal 5 (aux.built 1 4 false)) (poker.deal 8)
  = poker.deal 13 (aux.built 1 4 false).
Proof.
  apply (deal_deal (aux.built 1 4 false) 5 8).
  - split; simpl; lia.
  - lia.
  - lia.
  - simpl. lia.
Defined.

Lemma deal_body_draw_turn (g : poker.t) (player_no : Z) :
  player_no < poker.players g →
  poker.deal_body player_no g = session.draw_turn player_no g.
Proof.
  intros Hlt. unfold session.draw_turn, bind at 1.
  destruct (deal_body_cases g player_no)
    as [(rest & c & hand & Hpile & Hhand & ->)|[Hnone ->]].
  - by rewrite (draw_step g player_no rest hand c).
  - unfold poker.draw, bind, gets.
    destruct (Z.geb_spec player_no (poker.players g)); [lia|].
    unfold poker.on_pile at 1, deck.back.
    destruct (last (poker.pile g)) as [c|] eqn:Hlast; [|done].
    destruct Hnone as [Hpile|Hhand].
    { by rewrite Hpile in Hlast. }
    unfold poker.on_player. simpl. by rewrite Hhand.
Qed.

(** X5. [deal(k)] is [k * players] draws, player after player from
    player 0 and round after round: the loop of [deal] and the same
    number of turns [draw(player_no)] have one outcome, the undefined
    one included. *)
Theorem deal_as_draws (g : poker.t) (k : Z) :
  poker.wf g →
  poker.deal k g
  = (repeat_loop (Z.to_nat (uint (k * poker.players g)))
       session.draw_turn 0;;;
     ret ()) g.
Proof.
  intros [Hp _]. unfold poker.deal, bind, gets.
  assert (Hloop : ∀ (n : nat) pn g0,
            1 ≤ poker.players g0 < 2 ^ 32 → 0 ≤ pn < poker.players g0 →
            repeat_loop n poker.deal_body pn g0
            = repeat_loop n session.draw_turn pn g0).
  { induction n as [|n IH]; intros pn g0 Hp0 Hpn; simpl; [done|].
    unfold bind. rewrite <- deal_body_draw_turn by lia.
    destruct (deal_body_cases g0 pn)
      as [(rest & c & hand & _ & _ & ->)|[_ ->]]; [|done].
    rewrite uint_small by lia. apply IH; simpl; [done|].
    destruct (Z.geb_spec (pn + 1) (poker.players g0)); lia. }
  rewrite Hloop by lia. done.
Qed.

Lemma deal_as_draws_witness :
  poker.deal 13 (aux.built 1 4 false)
  = (repeat_loop 52 session.draw_turn 0;;; ret ()) (aux.built 1 4 false).
Proof.
  apply (deal_as_draws (aux.built 1 4 false) 13).
  split; simpl; lia.
Defined.

(** ** poker::sort_player_card *)

Lemma sort_each_spec (hands : list deck.t) :
  ∃ hands',
    poker.sort_each hands = Ret () hands'
    ∧ Forall2 (λ hand hand',
                 hand' ≡ₚ hand ∧ sorted_by deck.comp_rank_first hand')
              hands hands'
    ∧ poker.sort_each hands' = Ret () hands'.
Proof.
  induction hands as [|hand hands (hands' & Hsort & Hall & Hagain)].
  { exists []. split_and!; [done|constructor|done]. }
  destruct (sort_rank_first_spec hand) as (hand' & Hret & Hperm & Hsorted & Hfix).
  exists (hand' :: hands'). cbn [poker.sort_each]. rewrite Hret, Hsort.
  split_and!; [done|by constructor|].
  by rewrite Hfix, Hagain.
Qed.

(** X6. [sort_player_card()] always returns: it leaves [players] and
    the pile as they were and every hand a permutation of itself, sorted
    by the rank-first comparator (aces first, then kings down to twos,
    jokers between ace and king); called again, it changes nothing. *)
Theorem sort_player_card_spec (g : poker.t) :
  ∃ g',
    poker.sort_player_card g = Ret () g'
    ∧ poker.players g' = poker.players g
    ∧ poker.pile g' = poker.pile g
    ∧ Forall2 (λ hand hand',
                 hand' ≡ₚ hand ∧ sorted_by deck.comp_rank_first hand')
              (poker.player_card g) (poker.player_card g')
    ∧ poker.sort_player_card g' = Ret () g'.
Proof.
  destruct (sort_each_spec (poker.player_card g))
    as (hands' & Hsort & Hall & Hagain).
  exists (poker.mk (poker.players g) (poker.pile g) hands').
  unfold poker.sort_player_card. rewrite Hsort. simpl. rewrite Hagain.
  done.
Qed.

(** ** Sessions *)

Lemma concat_insert_middle (hands : list deck.t) (i : nat) (hand hand' : deck.t) :
  hands !! i = Some hand →
  concat hands = concat (take i hands) ++ hand ++ concat (drop (S i) hands)
  ∧ concat (<[i := hand']> hands)
    = concat (take i hands) ++ hand' ++ concat (drop (S i) hands).
Proof.
  intros Hi. split.
  - rewrite <- (take_drop_middle hands i hand) at 1 by done.
    by rewrite concat_app.
  - rewrite insert_take_drop by (by eapply lookup_lt_Some).
    by rewrite concat_app.
Qed.

(** A card moved from the end of the pile to the end of a hand. *)
Lemma move_cards (g : poker.t) (i : nat) (rest hand : deck.t) (c : card.t) :
  poker.pile g = rest ++ [c] →
  poker.player_card g !! i = Some hand →
  session.cards (poker.mk (poker.players g) rest
                   (<[i := hand ++ [c]]> (poker.player_card g)))
  ≡ₚ session.cards g.
Proof.
  intros Hpile Hhand. unfold session.cards. simpl.
  destruct (concat_insert_middle _ i hand (hand ++ [c]) Hhand) as [-> ->].
  rewrite Hpile, <- !app_assoc. f_equiv. simpl.
  symmetry. rewrite !app_assoc. apply Permutation_middle.
Qed.

Lemma shuffle_loop_left (time : nat) :
  ∀ (rs : list Z) (g g' : poker.t) (o : outcome poker.t ()),
    poker.shuffle_loop time rs g = Some o → session.left o = Some g' →
    poker.pile g' ≡ₚ poker.pile g
    ∧ poker.players g' = poker.players g
    ∧ poker.player_card g' = poker.player_card g.
Proof.
  induction time as [|time IH]; intros rs g g' o Hloop Hleft; simpl in Hloop.
  { injection Hloop as <-. by injection Hleft as <-. }
  destruct rs as [|a rs1]; [done|].
  destruct (poker.redraw a rs1) as [[b rs2]|]; [|done].
  unfold poker.on_pile in Hloop.
  pose proof (swap_inv (poker.pile g) a b _ eq_refl) as Hswap.
  destruct (poker.swap a b (poker.pile g)) as [[] pile'| |]; [|done|].
  - destruct (IH _ _ _ _ Hloop Hleft) as (Hperm & Hplayers & Hhands).
    simpl in *. by rewrite Hperm, Hswap.
  - by injection Hloop as <-.
Qed.

Lemma deal_loop_cards (g0 : poker.t) (n : nat) :
  ∀ (player_no : Z) (g : poker.t) (o : outcome poker.t Z) (g' : poker.t),
    repeat_loop n poker.deal_body player_no g = o →
    session.left o = Some g' →
    poker.players g' = poker.players g
    ∧ length (poker.player_card g') = length (poker.player_card g)
    ∧ session.cards g' ≡ₚ session.cards g.
Proof.
  induction n as [|n IH]; intros pn g o g' <- Hleft; simpl in Hleft.
  { by injection Hleft as <-. }
  unfold bind in Hleft.
  destruct (deal_body_cases g pn)
    as [(rest & c & hand & Hpile & Hhand & Hstep)|[_ Hstep]];
    rewrite Hstep in Hleft; [|done].
  destruct (IH _ _ _ _ eq_refl Hleft) as (Hplayers & Hlen & Hcards).
  simpl in *. rewrite length_insert in Hlen.
  split_and!; [done..|].
  rewrite Hcards. by apply move_cards.
Qed.

Lemma draw_cases (g : poker.t) (player_no : Z) :
  player_no < poker.players g →
  (∃ rest c hand,
     poker.pile g = rest ++ [c]
     ∧ poker.player_card g !! Z.to_nat player_no = Some hand
     ∧ poker.draw player_no g
       = Ret c (poker.mk (poker.players g) rest
                  (<[Z.to_nat player_no := hand ++ [c]]> (poker.player_card g))))
  ∨ poker.draw player_no g = UB.
Proof.
  intros Hlt.
  destruct (last (poker.pile g)) as [c|] eqn:Hlast.
  - apply last_Some in Hlast as [rest Hpile].
    destruct (poker.player_card g !! Z.to_nat player_no) as [hand|] eqn:Hhand.
    + left. exists rest, c, hand. split_and!; [done..|]. by apply draw_step.
    + right. unfold poker.draw, bind, gets.
      destruct (Z.geb_spec player_no (poker.players g)); [lia|].
      unfold poker.on_pile at 1, deck.back. rewrite Hpile, last_snoc.
      unfold poker.on_player. simpl. by rewrite Hhand.
  - right. apply last_None in Hlast. by apply draw_empty.
Qed.

Lemma draw_left (g g' : poker.t) (player_no : Z) :
  session.left (poker.draw player_no g) = Some g' →
  poker.players g' = poker.players g
  ∧ length (poker.player_card g') = length (poker.player_card g)
  ∧ session.cards g' ≡ₚ session.cards g.
Proof.
  destruct (Z.lt_ge_cases player_no (poker.players g)) as [Hlt|Hge].
  - destruct (draw_cases g player_no Hlt)
      as [(rest & c & hand & Hpile & Hhand & ->)| ->]; [|done].
    intros [= <-]. simpl. rewrite length_insert.
    split_and!; [done..|]. by apply move_cards.
  - rewrite draw_out_of_range by done. by intros [= <-].
Qed.

Lemma play_cases (g : poker.t) (player_no : Z) (c : card.t) :
  (poker.players g ≤ player_no
   ∧ poker.play player_no c g
     = Exc (out_of_range "The player number is too large") g)
  ∨ (player_no < poker.players g
     ∧ poker.player_card g !! Z.to_nat player_no = None
     ∧ poker.play player_no c g = UB)
  ∨ (∃ hand,
       player_no < poker.players g
       ∧ poker.player_card g !! Z.to_nat player_no = Some hand
       ∧ (c ∉ hand)
       ∧ poker.play player_no c g
         = Exc (invalid_argument "He or she does not have the card") g)
  ∨ (∃ before after,
       player_no < poker.players g
       ∧ poker.player_card g !! Z.to_nat player_no = Some (before ++ c :: after)
       ∧ (c ∉ before)
       ∧ poker.play player_no c g
         = Ret () (poker.mk (poker.players g) (poker.pile g)
                     (<[Z.to_nat player_no := before ++ after]>
                        (poker.player_card g)))).
Proof.
  unfold poker.play, bind, gets.
  destruct (Z.geb_spec player_no (poker.players g)); [by left|].
  right. unfold poker.on_player.
  destruct (poker.player_card g !! Z.to_nat player_no) as [hand|] eqn:Hhand;
    [|by left].
  right. destruct (decide (c ∈ hand)) as [Hin|Hnotin].
  - right. apply list_elem_of_split_l in Hin as (before & after & -> & Hbefore).
    exists before, after. by rewrite remove_first.
  - left. exists hand. rewrite remove_absent by done.
    rewrite list_insert_id by done. by destruct g.
Qed.

Lemma play_left (g g' : poker.t) (player_no : Z) (c : card.t) :
  session.left (poker.play player_no c g) = Some g' →
  poker.players g' = poker.players g
  ∧ length (poker.player_card g') = length (poker.player_card g)
  ∧ session.cards g' ⊆+ session.cards g.
Proof.
  destruct (play_cases g player_no c)
    as [[_ ->]|[(_ & _ & ->)|[(hand & _ & _ & _ & ->)
                            |(before & after & _ & Hhand & _ & ->)]]];
    try done; try (by intros [= <-]).
  intros [= <-]. simpl. rewrite length_insert. split_and!; [done..|].
  unfold session.cards. simpl.
  destruct (concat_insert_middle _ _ _ (before ++ after) Hhand) as [-> ->].
  apply submseteq_app; [done|].
  apply submseteq_app; [done|].
  apply submseteq_app; [|done].
  apply submseteq_app; [done|]. by apply submseteq_cons.
Qed.

Lemma sort_each_cards (hands hands' : list deck.t) :
  Forall2 (λ hand hand',
             hand' ≡ₚ hand ∧ sorted_by deck.comp_rank_first hand')
          hands hands' →
  concat hands' ≡ₚ concat hands.
Proof.
  induction 1 as [|hand hand' hands hands' [Hperm _] _ IH]; simpl; [done|].
  by rewrite Hperm, IH.
Qed.

Lemma step_invariant (c : session.call) (g g' : poker.t) :
  session.step c g = Some g' →
  poker.players g' = poker.players g
  ∧ length (poker.player_card g') = length (poker.player_card g)
  ∧ session.cards g' ⊆+ session.cards g
  ∧ ((∀ i x, c ≠ session.Play i x) → session.cards g' ≡ₚ session.cards g).
Proof.
  assert (Hweaken : ∀ (P Q R : Prop) (l1 l2 : list card.t),
            P ∧ Q ∧ l1 ≡ₚ l2 → P ∧ Q ∧ l1 ⊆+ l2 ∧ (R → l1 ≡ₚ l2)).
  { intros P Q R l1 l2 (? & ? & Hperm). split_and!; [done..| |done].
    by apply Permutation_submseteq. }
  destruct c as [time rs|k|i|i x|]; simpl; intros Hstep.
  - apply Hweaken.
    destruct (poker.shuffle time rs g) as [o|] eqn:Hshuffle; [|done].
    destruct (shuffle_loop_left _ _ _ _ _ Hshuffle Hstep) as (Hperm & ? & Hhands).
    unfold session.cards. by rewrite Hperm, Hhands.
  - apply Hweaken.
    unfold poker.deal, bind, gets in Hstep.
    destruct (repeat_loop _ poker.deal_body 0 g) as [pn g1| |] eqn:Hloop;
      try done.
    + injection Hstep as <-.
      by apply (deal_loop_cards g _ _ _ _ _ Hloop).
    + injection Hstep as <-.
      by apply (deal_loop_cards g _ _ _ _ _ Hloop).
  - apply Hweaken. by apply draw_left in Hstep.
  - apply play_left in Hstep as (? & ? & ?).
    split_and!; [done..|]. intros Hne. by destruct (Hne i x).
  - apply Hweaken.
    destruct (sort_each_spec (poker.player_card g)) as (hands' & Hsort & Hall & _).
    unfold poker.sort_player_card in Hstep. rewrite Hsort in Hstep.
    injection Hstep as <-. simpl.
    split_and!; [done|by apply Forall2_length in Hall|].
    unfold session.cards. simpl. by rewrite (sort_each_cards _ _ Hall).
Qed.

(** X7. Whatever a session calls, and whatever it catches, as long as
    the behaviour is defined: [players] and the number of hands stay
    what they were (so the invariant of the constructor holds on), and
    no card appears: the cards of the table are cards it had, copy for
    copy.  If [play] is not among the calls, they are exactly the cards
    it had. *)
Theorem session_keeps (calls : list session.call) (g g' : poker.t) :
  poker.wf g → session.run calls g = Some g' →
  poker.wf g'
  ∧ poker.players g' = poker.players g
  ∧ session.cards g' ⊆+ session.cards g
  ∧ (Forall (λ c, ∀ i x, c ≠ session.Play i x) calls →
     session.cards g' ≡ₚ session.cards g).
Proof.
  revert g. induction calls as [|c calls IH]; intros g Hwf Hrun;
    simpl in Hrun.
  { by injection Hrun as <-. }
  destruct (session.step c g) as [g1|] eqn:Hstep; [|done].
  apply step_invariant in Hstep as (Hplayers & Hlen & Hsub & Hperm).
  assert (Hwf1 : poker.wf g1).
  { destruct Hwf. split; [by rewrite Hplayers|]. by rewrite Hlen, Hplayers. }
  destruct (IH g1 Hwf1 Hrun) as (Hwf' & Hplayers' & Hsub' & Hperm').
  split_and!; [done|congruence|by etrans|].
  intros Hcalls. apply Forall_cons in Hcalls as [Hc Hcalls].
  by rewrite Hperm', Hperm.
Qed.

Lemma session_keeps_witness :
  ∃ g',
    session.run session.demo_calls (aux.built 1 4 false) = Some g'
    ∧ poker.wf g'
    ∧ session.cards g' ⊆+ session.cards (aux.built 1 4 false).
Proof.
  destruct (session.run session.demo_calls (aux.built 1 4 false))
    as [g'|] eqn:Hrun; [|vm_compute in Hrun; discriminate].
  destruct (session_keeps session.demo_calls (aux.built 1 4 false) g')
    as (Hwf & _ & Hsub & _).
  - split; simpl; lia.
  - exact Hrun.
  - exists g'. split; [reflexivity|]. split; [exact Hwf|exact Hsub].
Defined.

Lemma run_cards (calls : list session.call) (g g' : poker.t) :
  poker.wf g → session.run calls g = Some g' →
  poker.wf g' ∧ poker.players g' = poker.players g
  ∧ session.cards g' ⊆+ session.cards g.
Proof.
  revert g. induction calls as [|c calls IH]; intros g Hwf Hrun;
    simpl in Hrun.
  { by injection Hrun as <-. }
  destruct (session.step c g) as [g1|] eqn:Hstep; [|done].
  apply step_invariant in Hstep as (Hplayers & Hlen & Hsub & _).
  destruct (IH g1) as (Hwf' & Hplayers' & Hsub'); [|done|].
  { destruct Hwf. split; [by rewrite Hplayers|]. by rewrite Hlen, Hplayers. }
  split_and!; [done|congruence|by etrans].
Qed.

(** ** The cards of a table the constructor built *)

Lemma elem_of_concat_2 {A} (x : A) (l : list A) (ls : list (list A)) :
  x ∈ l → l ∈ ls → x ∈ concat ls.
Proof.
  intros Hx Hl. induction Hl; simpl; apply elem_of_app; auto.
Qed.

Lemma fresh_deck_cards (joker : bool) :
  Forall (λ c, 0 ≤ card.suit c ≤ 3 ∧ 1 ≤ card.number c ≤ 14)
         (aux.fresh_deck joker).
Proof.
  destruct joker; apply (bool_decide_unpack _); by vm_compute.
Qed.

Lemma built_cards (deck player : Z) (joker : bool) :
  Forall (λ c, 0 ≤ card.suit c ≤ 3 ∧ 1 ≤ card.number c ≤ 14)
         (session.cards (aux.built deck player joker)).
Proof.
  unfold session.cards, aux.built. simpl. apply Forall_app. split.
  - apply Forall_concat, Forall_replicate, fresh_deck_cards.
  - apply Forall_concat, Forall_replicate. constructor.
Qed.

(** X8. On a table the constructor built, after whatever defined
    session, no hand holds a card of number 0: [play] of such a card for
    a player number below [players] always throws [invalid_argument]
    and leaves the table as it was.  The last call of the demo,
    [game.play(2, 3)], is one: its [3] converts to [card{3, 0}]. *)
Theorem blank_card_not_held (deck player i : Z) (joker : bool)
    (calls : list session.call) (g' : poker.t) (c : card.t) :
  1 ≤ player < 2 ^ 32 → 0 ≤ i < player →
  session.run calls (aux.built deck player joker) = Some g' →
  card.number c = 0 →
  poker.play i c g'
  = Exc (invalid_argument "He or she does not have the card") g'.
Proof.
  intros Hplayer Hi Hrun Hc.
  destruct (run_cards calls (aux.built deck player joker) g')
    as ([_ Hlen] & Hplayers & Hsub); [|done|].
  { split; simpl; [done|]. rewrite length_replicate. lia. }
  simpl in Hplayers.
  assert (Hnotin : c ∉ session.cards g').
  { intros Hin. eapply elem_of_submseteq in Hin; [|exact Hsub].
    pose proof (built_cards deck player joker) as Hall.
    rewrite Forall_forall in Hall. apply Hall in Hin. lia. }
  destruct (play_cases g' i c)
    as [[? _]|[(_ & Hnone & _)|[(hand & _ & _ & _ & Hplay)
                              |(before & after & _ & Hhand & _)]]].
  - lia.
  - apply lookup_ge_None in Hnone. lia.
  - exact Hplay.
  - exfalso. apply Hnotin. unfold session.cards.
    apply elem_of_app. right.
    apply (elem_of_concat_2 _ (before ++ c :: after)).
    + apply elem_of_app. right. by left.
    + by eapply list_elem_of_lookup_2.
Qed.

(** The demo, in short: whatever the shuffle, [game.play(2, 3)]
    throws. *)
Lemma blank_card_not_held_witness :
  ∃ g',
    session.run (take 3 session.demo_calls) (aux.built 1 4 false) = Some g'
    ∧ poker.play 2 (card.ctor 3 0) g'
      = Exc (invalid_argument "He or she does not have the card") g'.
Proof.
  destruct (session.run (take 3 session.demo_calls) (aux.built 1 4 false))
    as [g'|] eqn:Hrun; [|vm_compute in Hrun; discriminate].
  exists g'. split; [reflexivity|].
  apply (blank_card_not_held 1 4 2 false (take 3 session.demo_calls));
    [lia|lia|exact Hrun|reflexivity].
Defined.

Lemma copies_concat_replicate (c : card.t) (n : nat) (cs : deck.t) :
  session.copies c (concat (replicate n cs))
  = Z.of_nat n * session.copies c cs.
Proof.
  unfold session.copies. induction n as [|n IH]; simpl; [lia|].
  rewrite filter_app, length_app. lia.
Qed.

Lemma fresh_deck_copies (joker : bool) :
  Forall (λ s,
     Forall (λ n, session.copies (card.mk s n) (aux.fresh_deck joker) = 1)
            (seqZ 1 13))
    (seqZ 0 4)
  ∧ session.copies (card.mk DIAMOND 14) (aux.fresh_deck joker)
    = if joker then 2 else 0.
Proof.
  split; [|by destruct joker].
  destruct joker; apply (bool_decide_unpack _); by vm_compute.
Qed.

(** X9. The pile the constructor builds holds every card of suits 0..3
    and numbers 1..13 exactly [deck] times, the joker [card{1,14}]
    twice [deck] times when jokers are asked for and never otherwise,
    and no other card: no card of number 0 or 15. *)
Theorem ctor_copies (deck player s n : Z) (joker : bool) :
  0 ≤ deck → player ≠ 0 → 0 ≤ s ≤ 3 → 1 ≤ n ≤ 13 →
  ∃ g,
    poker.ctor deck player joker = Ret () g
    ∧ session.copies (card.mk s n) (poker.pile g) = deck
    ∧ session.copies (card.mk DIAMOND 14) (poker.pile g)
      = (if joker then 2 * deck else 0)
    ∧ Forall (λ c, 0 ≤ card.suit c ≤ 3 ∧ 1 ≤ card.number c ≤ 14)
             (poker.pile g).
Proof.
  intros Hdeck Hplayer Hs Hn.
  exists (aux.built deck player joker).
  destruct (fresh_deck_copies joker) as [Hone Hjoker].
  split_and!.
  - by apply ctor_built.
  - simpl. rewrite copies_concat_replicate.
    rewrite Forall_forall in Hone.
    assert (Hs' : s ∈ seqZ 0 4) by (apply elem_of_seqZ; lia).
    apply Hone in Hs'. rewrite Forall_forall in Hs'.
    rewrite Hs' by (apply elem_of_seqZ; lia). lia.
  - simpl. rewrite copies_concat_replicate, Hjoker. destruct joker; lia.
  - simpl. apply Forall_concat, Forall_replicate, fresh_deck_cards.
Qed.

(** Two decks with jokers: two queens of hearts, four jokers. *)
Lemma ctor_copies_witness :
  ∃ g,
    poker.ctor 2 3 true = Ret () g
    ∧ session.copies (card.mk HEART 12) (poker.pile g) = 2
    ∧ session.copies (card.mk DIAMOND 14) (poker.pile g) = 4.
Proof.
  destruct (ctor_copies 2 3 HEART 12 true) as (g & Hctor & Hqueen & Hjoker & _);
    [lia|lia|unfold HEART; lia|lia|].
  exists g. split; [exact Hctor|]. split; [exact Hqueen|exact Hjoker].
Defined.

(** ** deck::push_back with back, pop_back and remove *)

(** X10. After [push_back(c)]: [back()] is [c]; [pop_back()] gives the
    deck back; [remove(c)] never throws, and gives the deck back when
    the deck held no card equal to [c], else it takes the first of the
    cards equal to [c] and leaves the pushed one at the end. *)
Theorem push_back_then (pile : deck.t) (c : card.t) :
  (deck.push_back c;;; deck.back) pile = Ret c (pile ++ [c])
  ∧ (deck.push_back c;;; deck.pop_back) pile = Ret () pile
  ∧ (deck.push_back c;;; deck.remove c) pile
    = Ret c (if decide (c ∈ pile)
             then delete (deck.find pile c) pile ++ [c]
             else pile).
Proof.
  unfold bind, deck.push_back, modify. split_and!.
  - unfold deck.back. by rewrite last_snoc.
  - unfold deck.pop_back. rewrite removelast_last. by destruct pile.
  - destruct (decide (c ∈ pile)) as [Hin|Hnotin].
    + apply list_elem_of_split_l in Hin as (before & after & -> & Hbefore).
      rewrite <- app_assoc. simpl.
      rewrite remove_first, find_first, delete_middle by done.
      by rewrite <- app_assoc.
    + rewrite <- (app_nil_r (pile ++ [c])), <- app_assoc. simpl.
      rewrite remove_first by done. by rewrite app_nil_r.
Qed.

(** ** Output *)

Lemma string_app_assoc (s1 s2 s3 : string) :
  (s1 +:+ s2) +:+ s3 = s1 +:+ (s2 +:+ s3).
Proof.
  induction s1 as [|a s1 IH]; [done|].
  change (String a ((s1 +:+ s2) +:+ s3) = String a (s1 +:+ (s2 +:+ s3))).
  by rewrite IH.
Qed.

Lemma string_app_nil_r (s : string) : s +:+ "" = s.
Proof.
  induction s as [|a s IH]; [done|].
  change (String a (s +:+ "") = String a s). by rewrite IH.
Qed.

(** What [card_out] writes does not depend on what was written
    before. *)
Lemma card_out_shift (os : ostream.t) (cd : card.t) :
  ostream.width os = 0 →
  out.card_out cd os
  = match out.card_out cd (ostream.mk "" 0 (ostream.left os) (ostream.fill os)) with
    | Ret _ os' =>
        Ret () (ostream.mk (ostream.written os +:+ ostream.written os')
                  (ostream.width os') (ostream.left os') (ostream.fill os'))
    | Exc e _ => Exc e os
    | UB => UB
    end.
Proof.
  destruct os as [w wd l f]. simpl. intros ->.
  unfold out.card_out, out.card_rank, out.suit_sign, out.at_, bind,
    ostream.put, ostream.setw, modify.
  destruct (card.number cd =? 14).
  - destruct (out.cardname !! Z.to_nat (card.number cd)); [|done]. done.
  - destruct (out.suit_image !! Z.to_nat (card.suit cd)); [|done].
    destruct (out.cardname !! Z.to_nat (card.number cd)); [|done].
    simpl. unfold ostream.padded. simpl.
    by rewrite !string_app_assoc.
Qed.

Lemma card_out_text (os : ostream.t) (cd : card.t) :
  ostream.width os = 0 → out.printable cd →
  out.card_out cd os
  = Ret () (ostream.mk (ostream.written os +:+ out.text os cd) 0
              (ostream.left os) (ostream.fill os))
  ∧ String.length (out.text os cd)
    = if card.number cd =? 14 then 5%nat else 6%nat.
Proof.
  intros Hwidth [Hs Hn]. rewrite card_out_shift by done. unfold out.text.
  destruct cd as [s n], os as [w wd l f]. simpl in *.
  assert (s = 0 ∨ s = 1 ∨ s = 2 ∨ s = 3) as Hsuit by lia.
  assert (n = 0 ∨ n = 1 ∨ n = 2 ∨ n = 3 ∨ n = 4 ∨ n = 5 ∨ n = 6 ∨ n = 7
          ∨ n = 8 ∨ n = 9 ∨ n = 10 ∨ n = 11 ∨ n = 12 ∨ n = 13 ∨ n = 14)
    as Hnumber by lia.
  destruct_or!; subst; destruct l; split; reflexivity.
Qed.

Lemma text_face (os : ostream.t) (cd : card.t) :
  out.printable cd → out.text os cd = out.face os cd.
Proof.
  intros [Hs Hn]. unfold out.text, out.face.
  destruct cd as [s n], os as [w wd l f]. simpl in *.
  assert (s = 0 ∨ s = 1 ∨ s = 2 ∨ s = 3) as Hsuit by lia.
  assert (n = 0 ∨ n = 1 ∨ n = 2 ∨ n = 3 ∨ n = 4 ∨ n = 5 ∨ n = 6 ∨ n = 7
          ∨ n = 8 ∨ n = 9 ∨ n = 10 ∨ n = 11 ∨ n = 12 ∨ n = 13 ∨ n = 14)
    as Hnumber by lia.
  destruct_or!; subst; destruct l; reflexivity.
Qed.

(** X11. On a stream of width 0, [os << cd] for a card whose number is
    in [cardname] (0 to 14) returns, having written the face of the
    card after what was written and left the width 0.  The face is, for
    the number 14, the five bytes [JOKER], whatever the suit, and else
    six bytes: the three of the sign [suit_image[suit]], a space, and
    the label [cardname[number]] in a field of two, the fill character
    before a label shorter than two, or after it on a stream adjusted
    [left].  For the number 15, which the bit-field can hold, it is
    undefined: it reads [cardname[15]]. *)
Theorem card_out_spec (os : ostream.t) (cd : card.t) :
  ostream.width os = 0 →
  0 ≤ card.suit cd ≤ 3 → 0 ≤ card.number cd ≤ 15 →
  if decide (card.number cd = 15) then out.card_out cd os = UB
  else
    out.card_out cd os
    = Ret () (ostream.mk (ostream.written os +:+ out.face os cd) 0
                (ostream.left os) (ostream.fill os))
    ∧ out.text os cd = out.face os cd
    ∧ String.length (out.face os cd)
      = (if decide (card.number cd = 14) then 5%nat else 6%nat)
    ∧ (ostream.left os = false → card.number cd ≠ 14 →
       ∃ sign rank,
         out.suit_image !! Z.to_nat (card.suit cd) = Some sign
         ∧ out.cardname !! Z.to_nat (card.number cd) = Some rank
         ∧ out.face os cd
           = sign +:+ " "
             +:+ ostream.fill_n (2 - String.length rank) (ostream.fill os)
             +:+ rank).
Proof.
  intros Hwidth Hs Hn. case_decide as H15.
  - unfold out.card_out, out.card_rank, out.suit_sign, out.at_, bind.
    rewrite H15. simpl.
    destruct (out.suit_image !! Z.to_nat (card.suit cd)); done.
  - assert (Hcd : out.printable cd) by (split; [done|lia]).
    destruct (card_out_text os cd Hwidth Hcd) as [Hout Hlen].
    pose proof (text_face os cd Hcd) as Hface.
    rewrite <- Hface. split_and!; [done|done| |].
    + rewrite Hlen. destruct (Z.eqb_spec (card.number cd) 14);
        case_decide; done.
    + intros Hleft H14. rewrite Hface. unfold out.face, out.label.
      rewrite Hleft.
      destruct (Z.eqb_spec (card.number cd) 14) as [|_]; [done|].
      destruct (lookup_lt_is_Some_2 out.suit_image
                  (Z.to_nat (card.suit cd))) as [sign Hsign]; [simpl; lia|].
      destruct (lookup_lt_is_Some_2 out.cardname
                  (Z.to_nat (card.number cd))) as [rank Hrank]; [simpl; lia|].
      exists sign, rank. rewrite Hsign, Hrank. done.
Qed.

(** The queen of hearts on a stream adjusted right and on one adjusted
    [left], the ten of spades, the joker, and [card{0, 31}]. *)
Lemma card_out_spec_witness :
  out.card_out (card.mk HEART 12) (ostream.mk "" 0 false (Ascii.ascii_of_nat 32))
  = Ret () (ostream.mk "♥  Q" 0 false (Ascii.ascii_of_nat 32))
  ∧ out.card_out (card.mk HEART 12)
      (ostream.mk "" 0 true (Ascii.ascii_of_nat 32))
    = Ret () (ostream.mk "♥ Q " 0 true (Ascii.ascii_of_nat 32))
  ∧ out.card_out (card.mk SPADE 10)
      (ostream.mk "" 0 false (Ascii.ascii_of_nat 32))
    = Ret () (ostream.mk "♠ 10" 0 false (Ascii.ascii_of_nat 32))
  ∧ out.card_out (card.mk DIAMOND 14)
      (ostream.mk "" 0 false (Ascii.ascii_of_nat 32))
    = Ret () (ostream.mk "JOKER" 0 false (Ascii.ascii_of_nat 32))
  ∧ out.card_out (card.ctor 0 31)
      (ostream.mk "" 0 false (Ascii.ascii_of_nat 32)) = UB.
Proof.
  split_and!.
  - pose proof (card_out_spec (ostream.mk "" 0 false (Ascii.ascii_of_nat 32))
                  (card.mk HEART 12)) as Hspec.
    simpl in Hspec. destruct Hspec as (Hout & _); [done|unfold HEART; lia|lia|].
    exact Hout.
  - pose proof (card_out_spec (ostream.mk "" 0 true (Ascii.ascii_of_nat 32))
                  (card.mk HEART 12)) as Hspec.
    simpl in Hspec. destruct Hspec as (Hout & _); [done|unfold HEART; lia|lia|].
    exact Hout.
  - pose proof (card_out_spec (ostream.mk "" 0 false (Ascii.ascii_of_nat 32))
                  (card.mk SPADE 10)) as Hspec.
    simpl in Hspec. destruct Hspec as (Hout & _); [done|unfold SPADE; lia|lia|].
    exact Hout.
  - pose proof (card_out_spec (ostream.mk "" 0 false (Ascii.ascii_of_nat 32))
                  (card.mk DIAMOND 14)) as Hspec.
    simpl in Hspec. destruct Hspec as (Hout & _); [done|unfold DIAMOND; lia|lia|].
    exact Hout.
  - pose proof (card_out_spec (ostream.mk "" 0 false (Ascii.ascii_of_nat 32))
                  (card.ctor 0 31)) as Hspec.
    apply Hspec; [done|vm_compute; split; discriminate..].
Defined.

Lemma put_plain (os : ostream.t) (s : string) :
  ostream.width os = 0 →
  ostream.put s os
  = Ret () (ostream.mk (ostream.written os +:+ s) 0
              (ostream.left os) (ostream.fill os)).
Proof.
  intros Hwidth. unfold ostream.put, modify, ostream.padded.
  rewrite Hwidth. simpl.
  destruct (ostream.left os); [by rewrite string_app_nil_r|done].
Qed.

Lemma ostream_eta (os : ostream.t) :
  ostream.width os = 0 →
  ostream.mk (ostream.written os +:+ "") 0 (ostream.left os) (ostream.fill os)
  = os.
Proof.
  destruct os as [w wd l f]. simpl. intros ->. by rewrite string_app_nil_r.
Qed.

(** The loop of [no_sort_ostream] from the card of index [k] on. *)
Lemma no_sort_loop (cards : deck.t) :
  ∀ (rest : deck.t) (k : nat) (os : ostream.t),
    ostream.width os = 0 → Forall out.printable rest →
    drop k cards = rest →
    foldr (λ i cont,
             bind (ostream.put "  ";;;
                   c <~ (λ os, match cards !! Z.to_nat i with
                               | Some c => Ret c os
                               | None => UB
                               end);;
                   out.card_out c)
                  (λ _, cont))
          (ret ()) (seqZ (Z.of_nat k) (Z.of_nat (length rest))) os
    = Ret () (ostream.mk
                (ostream.written os
                 +:+ foldr (λ cd acc, "  " +:+ out.text os cd +:+ acc) "" rest)
                0 (ostream.left os) (ostream.fill os)).
Proof.
  induction rest as [|cd rest IH]; intros k os Hwidth Hall Hdrop.
  { simpl. unfold ret. by rewrite ostream_eta. }
  apply Forall_cons in Hall as [Hcd Hall].
  assert (Hseq : seqZ (Z.of_nat k) (Z.of_nat (length (cd :: rest)))
                 = Z.of_nat k :: seqZ (Z.of_nat (S k)) (Z.of_nat (length rest))).
  { rewrite seqZ_cons by (simpl; lia). f_equal. f_equal; simpl; lia. }
  rewrite Hseq. simpl foldr.
  unfold bind at 1 2 3. rewrite put_plain by done.
  rewrite Nat2Z.id.
  assert (cards !! k = Some cd) as Hk.
  { rewrite <- (Nat.add_0_r k), <- lookup_drop, Hdrop. done. }
  rewrite Hk.
  destruct (card_out_text
              (ostream.mk (ostream.written os +:+ "  ") 0
                 (ostream.left os) (ostream.fill os)) cd) as [-> _];
    [done..|].
  rewrite (IH (S k)); [|done|done|].
  - simpl. f_equal. f_equal. by rewrite !string_app_assoc.
  - erewrite drop_S in Hdrop by done. by injection Hdrop.
Qed.

Lemma join_cons (sep t : string) (texts : list string) :
  out.join sep (t :: texts)
  = t +:+ foldr (λ x acc, sep +:+ x +:+ acc) "" texts.
Proof.
  revert t. induction texts as [|x texts IH]; intros t.
  - simpl. by rewrite string_app_nil_r.
  - change (out.join sep (t :: x :: texts))
      with (t +:+ sep +:+ out.join sep (x :: texts)).
    by rewrite IH.
Qed.

(** X12. In the default mode [no_sort], on a stream of width 0,
    [os << dk] for a deck of fewer than [2 ^ 32] cards whose numbers are
    in [cardname] returns, having written the texts of the cards in the
    order of the deck, two spaces between neighbours and nothing at
    either end; for the empty deck it writes nothing. *)
Theorem no_sort_spec (fuel : nat) (cards : deck.t) (os : ostream.t) :
  ostream.width os = 0 → Forall out.printable cards →
  deck.size cards < 2 ^ 32 →
  out.deck_out (S fuel) (out.mk_deck out.no_sort cards) os
  = Some (Ret () (ostream.mk
                    (ostream.written os
                     +:+ out.join "  " (out.text os <$> cards))
                    0 (ostream.left os) (ostream.fill os))).
Proof.
  intros Hwidth Hall Hsize. simpl. unfold out.no_sort_ostream.
  destruct cards as [|c0 rest].
  { simpl. by rewrite ostream_eta. }
  replace (deck.empty (c0 :: rest)) with false by done.
  destruct (Z.ltb_spec (deck.size (c0 :: rest)) (2 ^ 32)); [|lia].
  f_equal. apply Forall_cons in Hall as [Hc0 Hall].
  unfold bind at 1 2. simpl lookup. cbn match.
  destruct (card_out_text os c0 Hwidth Hc0) as [-> _].
  unfold for_range.
  replace (deck.size (c0 :: rest) - 1) with (Z.of_nat (length rest))
    by (unfold deck.size; simpl; lia).
  rewrite (no_sort_loop (c0 :: rest) rest 1); [|done..].
  rewrite fmap_cons, join_cons.
  cbn [ostream.written ostream.left ostream.fill].
  rewrite string_app_assoc. do 4 f_equal.
  clear. induction rest as [|cd rest IH]; [done|].
  rewrite fmap_cons. cbn [foldr]. rewrite <- IH. reflexivity.
Qed.

(** The hand K♠ A♣ JOKER 10♥. *)
Lemma no_sort_spec_witness :
  ∃ os',
    out.deck_out 1
      (out.mk_deck out.no_sort
         [card.mk SPADE 13; card.mk CLUB 1; aux.joker; card.mk HEART 10])
      (ostream.mk "" 0 false (Ascii.ascii_of_nat 32)) = Some (Ret () os')
    ∧ ostream.written os' = "♠  K  ♣  A  JOKER  ♥ 10".
Proof.
  eexists. split.
  - apply (no_sort_spec 0); [done| |vm_compute; reflexivity].
    repeat constructor; vm_compute; discriminate.
  - vm_compute. reflexivity.
Defined.

Lemma then_ends {A B} (p : ostream.P A) (k : A → ostream.P B) :
  (∀ os, is_Some (p os)) → (∀ a os, is_Some (k a os)) →
  ∀ os, is_Some (ostream.then_ p k os).
Proof.
  intros Hp Hk os. unfold ostream.then_.
  destruct (Hp os) as [[a os'| |] ->]; [apply Hk|done..].
Qed.

(** X13. In the mode [sort_by_number], [os << dk] never returns,
    whatever the deck: [sort_by_number_ostream] sorts a copy of the deck
    and prints the copy, which has the mode of the deck, so that it
    calls itself without end.  In the three other modes printing a deck
    of fewer than [2 ^ 32] cards has an outcome, a return or an
    undefined read of a card, with calls two deep. *)
Theorem sort_by_number_never_returns (fuel : nat) (cards : deck.t)
    (os : ostream.t) (mode : out.print_mode) :
  out.deck_out fuel (out.mk_deck out.sort_by_number cards) os = None
  ∧ (mode ≠ out.sort_by_number → deck.size cards < 2 ^ 32 →
     is_Some (out.deck_out 2 (out.mk_deck mode cards) os)).
Proof.
  split.
  - revert cards. induction fuel as [|fuel IH]; intros cards; [done|].
    cbn [out.deck_out out.output_stream out.pile].
    rewrite sort_rank_first_ret. apply IH.
  - intros Hmode Hsize. destruct mode; simpl; [|done| |done].
    + unfold out.no_sort_ostream. destruct (deck.empty cards); [done|].
      by destruct (Z.ltb_spec (deck.size cards) (2 ^ 32)); [|lia].
    + repeat match goal with
             | |- ∀ _, _ => intro
             | |- is_Some (ostream.then_ _ _ _) => apply then_ends
             | |- is_Some (ostream.ends _ _) => by eexists
             | |- is_Some (Some _) => by eexists
             | |- is_Some (match deck.suit_subdeck ?i ?c with _ => _ end _) =>
                 destruct (deck.suit_subdeck i c)
             end.
Qed.

Lemma sort_by_number_never_returns_witness :
  out.deck_out 1000 (out.mk_deck out.sort_by_number [card.mk SPADE 13])
    (ostream.mk "" 0 false (Ascii.ascii_of_nat 32)) = None
  ∧ is_Some (out.deck_out 2 (out.mk_deck out.sort_by_suit [card.mk SPADE 13])
               (ostream.mk "" 0 false (Ascii.ascii_of_nat 32))).
Proof.
  destruct (sort_by_number_never_returns 1000 [card.mk SPADE 13]
              (ostream.mk "" 0 false (Ascii.ascii_of_nat 32)) out.sort_by_suit)
    as [Hnever Hends].
  split; [exact Hnever|]. apply Hends; [discriminate|vm_compute; reflexivity].
Defined.

Lemma suit_subdeck_ret (suit : Z) (pile : deck.t) :
  deck.suit_subdeck suit pile
  = Ret (filter (λ c, card.suit c = suit) pile) pile.
Proof. unfold deck.suit_subdeck. by rewrite suit_subdeck_loop. Qed.

Lemma then_ret {A B} (p : ostream.P A) (k : A → ostream.P B)
    (a : A) (os os' : ostream.t) :
  p os = Some (Ret a os') → ostream.then_ p k os = k a os'.
Proof. intros Hp. unfold ostream.then_. by rewrite Hp. Qed.

Lemma rank_only_text (sub : deck.t) (os : ostream.t) :
  ostream.width os = 0 →
  Forall (λ cd, 0 ≤ card.number cd ≤ 14) sub →
  out.rank_only_ostream sub os
  = Ret () (ostream.mk
              (ostream.written os
               +:+ foldr (λ cd acc, out.label cd +:+ " " +:+ acc) "" sub)
              0 (ostream.left os) (ostream.fill os)).
Proof.
  intros Hwidth Hall. revert os Hwidth.
  induction Hall as [|cd sub Hcd Hall IH]; intros os Hwidth.
  { simpl. unfold ret. by rewrite ostream_eta. }
  cbn [out.rank_only_ostream foldr].
  fold (out.rank_only_ostream sub).
  unfold bind, out.card_rank, out.at_, out.label.
  destruct (lookup_lt_is_Some_2 out.cardname (Z.to_nat (card.number cd)))
    as [r Hr]; [simpl; lia|].
  rewrite Hr. rewrite put_plain by done. rewrite put_plain by done.
  rewrite IH by done.
  cbn [ostream.written ostream.left ostream.fill default].
  by rewrite !string_app_assoc.
Qed.

Lemma suit_row (i : Z) (cards : deck.t) (os : ostream.t) :
  0 ≤ i ≤ 3 → ostream.width os = 0 →
  Forall (λ cd, 0 ≤ card.number cd ≤ 14) cards →
  ostream.then_
    (ostream.ends (s <~ out.at_ out.suit_image i;;
                   ostream.put s;;; ostream.put "  "))
    (λ _, ostream.then_
            (ostream.ends
               (out.rank_only_ostream
                  (filter (λ c, card.suit c = i) cards)))
            (λ _, ostream.ends (ostream.put out.newline))) os
  = Some (Ret () (ostream.mk
                    (ostream.written os +:+ out.suit_line i cards)
                    0 (ostream.left os) (ostream.fill os))).
Proof.
  intros Hi Hwidth Hall.
  destruct (lookup_lt_is_Some_2 out.suit_image (Z.to_nat i))
    as [sign Hsign]; [simpl; lia|].
  erewrite then_ret; cycle 1.
  { unfold ostream.ends, bind, out.at_. rewrite Hsign.
    rewrite put_plain by done. rewrite put_plain by done. reflexivity. }
  erewrite then_ret; cycle 1.
  { unfold ostream.ends. rewrite rank_only_text; [reflexivity|done|].
    apply Forall_forall. intros cd [_ Hcd]%list_elem_of_filter.
    by apply (proj1 (Forall_forall _ _) Hall). }
  unfold ostream.ends. rewrite put_plain by done.
  cbn [ostream.written ostream.left ostream.fill].
  unfold out.suit_line, out.ranks. rewrite Hsign.
  cbn [default]. by rewrite !string_app_assoc.
Qed.

(** X14. In the mode [sort_by_suit], on a stream of width 0,
    [os << dk] for a deck whose numbers are in [cardname] returns,
    whatever the size of the deck, having written four lines, for
    SPADE, HEART, DIAMOND and CLUB in this order: the sign of the suit,
    two spaces, and the labels of the cards of the suit, a space after
    each, in the order they have in the deck and not sorted by number;
    a joker is on the line of DIAMOND. *)
Theorem sort_by_suit_spec (fuel : nat) (cards : deck.t) (os : ostream.t) :
  ostream.width os = 0 →
  Forall (λ cd, 0 ≤ card.number cd ≤ 14) cards →
  out.deck_out (S (S fuel)) (out.mk_deck out.sort_by_suit cards) os
  = Some (Ret () (ostream.mk
                    (ostream.written os
                     +:+ out.suit_line SPADE cards
                     +:+ out.suit_line HEART cards
                     +:+ out.suit_line DIAMOND cards
                     +:+ out.suit_line CLUB cards)
                    0 (ostream.left os) (ostream.fill os))).
Proof.
  intros Hwidth Hall.
  cbn [out.deck_out out.output_stream out.pile foldr].
  rewrite !suit_subdeck_ret.
  do 4 (erewrite then_ret; [|apply suit_row; [done..]]).
  unfold ostream.ends, ret.
  cbn [ostream.written ostream.left ostream.fill].
  by rewrite !string_app_assoc.
Qed.

(** The hand 3♠ K♥ JOKER A♠ 10♦: the spades come out as 3, A. *)
Lemma sort_by_suit_spec_witness :
  ∃ os',
    out.deck_out 2
      (out.mk_deck out.sort_by_suit
         [card.mk SPADE 3; card.mk HEART 13; aux.joker; card.mk SPADE 1;
          card.mk DIAMOND 10])
      (ostream.mk "" 0 false (Ascii.ascii_of_nat 32)) = Some (Ret () os')
    ∧ ostream.written os'
      = "♠  3 A " +:+ out.newline +:+ "♥  K " +:+ out.newline
        +:+ "♦  JOKER 10 " +:+ out.newline +:+ "♣  " +:+ out.newline.
Proof.
  eexists. split.
  - apply (sort_by_suit_spec 0); [done|].
    repeat constructor; vm_compute; discriminate.
  - vm_compute. reflexivity.
Defined.

(** ** deck::sort(suit_first_descending) and the sort of 2019 *)

(** Two relations that agree on the elements of the lists give one
    merge. *)
Lemma list_merge_ext {A} (R1 R2 : relation A)
    `{∀ x y, Decision (R1 x y)} `{∀ x y, Decision (R2 x y)}
    (P : A → Prop) (l1 l2 : list A) :
  (∀ x y, P x → P y → (R1 x y ↔ R2 x y)) →
  Forall P l1 → Forall P l2 →
  list_merge R1 l1 l2 = list_merge R2 l1 l2.
Proof.
  intros HR H1. revert l2. induction H1 as [|x1 l1 Hx1 H1 IH]; intros l2 H2.
  { by rewrite !list_merge_nil_l. }
  induction H2 as [|x2 l2 Hx2 H2 IH2].
  { by rewrite !list_merge_nil_r. }
  rewrite !list_merge_cons.
  destruct (decide (R1 x1 x2)) as [Hr|Hr], (decide (R2 x1 x2)) as [Hr'|Hr'].
  - f_equal. apply IH. by constructor.
  - destruct Hr'. by apply HR.
  - destruct Hr. by apply HR.
  - f_equal. apply IH2.
Qed.

Lemma merge_sort_aux_ext {A} (R1 R2 : relation A)
    `{∀ x y, Decision (R1 x y)} `{∀ x y, Decision (R2 x y)}
    (P : A → Prop) (st : list (option (list A))) (l : list A) :
  (∀ x y, P x → P y → (R1 x y ↔ R2 x y)) →
  Forall (from_option (Forall P) True) st → Forall P l →
  merge_sort_aux R1 st l = merge_sort_aux R2 st l.
Proof.
  intros HR.
  assert (Hmerge : ∀ l1 l2, Forall P l1 → Forall P l2 →
                     Forall P (list_merge R2 l1 l2)).
  { intros l1 l2 H1 H2. rewrite merge_Permutation. by apply Forall_app. }
  assert (Hpush : ∀ st l, Forall (from_option (Forall P) True) st →
                    Forall P l →
                    merge_list_to_stack R1 st l = merge_list_to_stack R2 st l
                    ∧ Forall (from_option (Forall P) True)
                        (merge_list_to_stack R2 st l)).
  { clear st l. intros st. induction st as [|[l'|] st IH]; intros l Hst Hl.
    - split; [done|]. by repeat constructor.
    - apply Forall_cons in Hst as [Hl' Hst]. simpl in Hl'. simpl.
      rewrite (list_merge_ext R1 R2 P) by done.
      destruct (IH (list_merge R2 l' l)) as [-> Hok]; [done|by apply Hmerge|].
      split; [done|]. by constructor.
    - apply Forall_cons in Hst as [_ Hst]. simpl.
      split; [done|]. by constructor. }
  assert (Hpop : ∀ st, Forall (from_option (Forall P) True) st →
                   merge_stack R1 st = merge_stack R2 st
                   ∧ Forall P (merge_stack R2 st)).
  { clear st l. intros st. induction st as [|[l'|] st IH]; intros Hst.
    - split; [done|constructor].
    - apply Forall_cons in Hst as [Hl' Hst]. simpl in Hl'. simpl.
      destruct (IH Hst) as [-> Hok].
      split; [by apply (list_merge_ext R1 R2 P)|by apply Hmerge].
    - apply Forall_cons in Hst as [_ Hst]. simpl. by apply IH. }
  intros Hst Hl. revert st Hst.
  induction Hl as [|x l Hx Hl IH]; intros st Hst; simpl.
  - by apply Hpop.
  - destruct (Hpush st [x]) as [-> Hok]; [done|by repeat constructor|].
    by apply IH.
Qed.

Lemma StronglySorted_on {A} (R1 R2 : relation A) (P : A → Prop)
    (l : list A) :
  (∀ x y, P x → P y → R1 x y → R2 x y) →
  Forall P l → StronglySorted R1 l → StronglySorted R2 l.
Proof.
  intros HR Hall Hsorted.
  induction Hsorted as [|x l Hsorted IH Hx]; [constructor|].
  apply Forall_cons in Hall as [HPx Hall].
  constructor; [by apply IH|].
  apply Forall_forall. intros y Hy. apply HR; [done| |].
  - by apply (proj1 (Forall_forall _ _) Hall).
  - by apply (proj1 (Forall_forall _ _) Hx).
Qed.

(** The merge sort of the embedding sorts whenever the relation is
    total and transitive on the elements of the list. *)
Lemma merge_sort_on {A} (R : relation A) `{∀ x y, Decision (R x y)}
    (P : A → Prop) `{∀ x, Decision (P x)} (l : list A) :
  (∀ x y, P x → P y → R x y ∨ R y x) →
  (∀ x y z, P x → P y → P z → R x y → R y z → R x z) →
  Forall P l → StronglySorted R (merge_sort R l).
Proof.
  intros Htotal Htrans Hall.
  set (R' := λ x y, ¬ P x ∨ (P y ∧ R x y)).
  assert (Hdec : ∀ x y, Decision (R' x y)) by (intros x y; apply _).
  assert (Total R').
  { intros x y. unfold R'.
    destruct (decide (P x)); [|tauto]. destruct (decide (P y)); [|tauto].
    destruct (Htotal x y); tauto. }
  assert (Transitive R').
  { intros x y z [?|[Hy Hxy]] [?|[Hz Hyz]]; unfold R'; try tauto.
    destruct (decide (P x)); [|tauto]. right. split; [done|].
    by apply (Htrans x y z). }
  assert (Hext : merge_sort R l = merge_sort R' l).
  { apply (merge_sort_aux_ext R R' P); [|constructor|done].
    intros x y Hx Hy. unfold R'. tauto. }
  rewrite Hext. apply (StronglySorted_on R' R P).
  - intros x y Hx Hy [?|[_ ?]]; [done|done].
  - by rewrite merge_sort_Permutation.
  - apply StronglySorted_merge_sort; apply _.
Qed.

Lemma forallb_elem_of {A} (f : A → bool) (l : list A) :
  forallb f l = true ↔ ∀ x, x ∈ l → f x = true.
Proof.
  rewrite forallb_forall. split; intros Hf x Hx; apply Hf.
  - by apply list_elem_of_In.
  - by apply list_elem_of_In.
Qed.

Lemma strict_weak_on_suit_first (pile : deck.t) :
  Forall (λ c, card.number c ≠ 1) pile →
  strict_weak_on deck.comp_suit_first pile = true.
Proof.
  intros Hall. rewrite Forall_forall in Hall.
  unfold strict_weak_on. rewrite !andb_true_iff. split_and!.
  - apply forallb_elem_of. intros a Ha%Hall.
    unfold deck.comp_suit_first. comp_cases.
  - apply forallb_elem_of. intros a Ha%Hall.
    apply forallb_elem_of. intros b Hb%Hall.
    apply forallb_elem_of. intros c Hc%Hall.
    unfold deck.comp_suit_first. comp_cases.
  - apply forallb_elem_of. intros a Ha%Hall.
    apply forallb_elem_of. intros b Hb%Hall.
    apply forallb_elem_of. intros c Hc%Hall.
    unfold equiv, deck.comp_suit_first. comp_cases.
Qed.

Lemma suit_first_sorted (pile : deck.t) :
  Forall (λ c, card.number c ≠ 1) pile →
  sorted_by deck.comp_suit_first
    (merge_sort (may_precede deck.comp_suit_first) pile).
Proof.
  apply (merge_sort_on _ (λ c, card.number c ≠ 1)).
  - intros x y Hx Hy. unfold may_precede, deck.comp_suit_first.
    comp_cases; auto.
  - intros x y z Hx Hy Hz. unfold may_precede, deck.comp_suit_first.
    comp_cases.
Qed.

(** X15. On a deck that holds no ace, [sort(suit_first_descending)]
    returns and leaves a permutation of the deck with the greater suit
    first and, within a suit, the greater number first; sorting it again
    changes nothing. *)
Theorem sort_suit_first_spec (pile : deck.t) :
  Forall (λ c, card.number c ≠ 1) pile →
  ∃ pile',
    deck.sort deck.suit_first_descending pile = Ret () pile'
    ∧ pile' ≡ₚ pile
    ∧ sorted_by deck.comp_suit_first pile'
    ∧ (∀ (i j : nat) (x y : card.t),
         pile' !! i = Some x → pile' !! j = Some y → (i < j)%nat →
         card.suit x > card.suit y
         ∨ (card.suit x = card.suit y ∧ card.number y ≤ card.number x))
    ∧ deck.sort deck.suit_first_descending pile' = Ret () pile'.
Proof.
  intros Hall.
  pose proof (suit_first_sorted pile Hall) as Hsorted.
  pose proof (merge_sort_Permutation (may_precede deck.comp_suit_first) pile)
    as Hperm.
  assert (Hall' : Forall (λ c, card.number c ≠ 1)
                    (merge_sort (may_precede deck.comp_suit_first) pile))
    by (by rewrite Hperm).
  exists (merge_sort (may_precede deck.comp_suit_first) pile).
  unfold deck.sort, std_sort. rewrite !strict_weak_on_suit_first by done.
  split_and!; [done|done|done| |].
  - intros i j x y Hi Hj Hij.
    pose proof (sorted_by_lookup _ _ _ _ _ _ Hsorted Hi Hj Hij) as Hcomp.
    rewrite Forall_forall in Hall'.
    assert (Hx : card.number x ≠ 1)
      by (apply Hall'; by eapply list_elem_of_lookup_2).
    assert (Hy : card.number y ≠ 1)
      by (apply Hall'; by eapply list_elem_of_lookup_2).
    revert Hcomp. unfold deck.comp_suit_first. comp_cases.
  - f_equal.
    apply (StronglySorted_unique_strong (may_precede deck.comp_suit_first));
      [|by apply suit_first_sorted|done|apply merge_sort_Permutation].
    intros [sx nx] [sy ny] Hx Hy.
    assert (Hnx : nx ≠ 1).
    { rewrite merge_sort_Permutation in Hx.
      by apply (proj1 (Forall_forall _ _) Hall') in Hx. }
    assert (Hny : ny ≠ 1)
      by (by apply (proj1 (Forall_forall _ _) Hall') in Hy).
    unfold may_precede, deck.comp_suit_first. simpl. intros Hxy Hyx.
    assert (nx = ny ∧ sx = sy) as [-> ->]; [|done].
    revert Hxy Hyx. comp_cases.
Qed.

(** The hand 7♥ JOKER K♠ 2♠ K♥ 7♥. *)
Lemma sort_suit_first_spec_witness :
  deck.sort deck.suit_first_descending
    [card.mk HEART 7; aux.joker; card.mk SPADE 13; card.mk SPADE 2;
     card.mk HEART 13; card.mk HEART 7]
  = Ret () [card.mk SPADE 13; card.mk SPADE 2; card.mk HEART 13;
            card.mk HEART 7; card.mk HEART 7; aux.joker].
Proof.
  destruct (sort_suit_first_spec
              [card.mk HEART 7; aux.joker; card.mk SPADE 13; card.mk SPADE 2;
               card.mk HEART 13; card.mk HEART 7])
    as (pile' & Hsort & _).
  { repeat constructor; vm_compute; discriminate. }
  rewrite Hsort. vm_compute in Hsort. by injection Hsort as <-.
Defined.

(** X16. The comparator of [suit_first_descending] holds of an ace and
    itself, so on a deck that holds an ace, one being enough, it is no
    strict weak ordering and [sort(suit_first_descending)] has
    undefined behaviour. *)
Theorem sort_suit_first_ace (pile : deck.t) (a : card.t) :
  a ∈ pile → card.number a = 1 →
  deck.comp_suit_first a a = true
  ∧ strict_weak_on deck.comp_suit_first pile = false
  ∧ deck.sort deck.suit_first_descending pile = UB.
Proof.
  intros Hin Ha.
  assert (Hcomp : deck.comp_suit_first a a = true).
  { unfold deck.comp_suit_first. by rewrite Ha, Z.eqb_refl. }
  assert (Hweak : strict_weak_on deck.comp_suit_first pile = false).
  { unfold strict_weak_on.
    destruct (forallb (λ a, negb (deck.comp_suit_first a a)) pile) eqn:Hirr;
      [|done].
    rewrite forallb_elem_of in Hirr. apply Hirr in Hin.
    by rewrite Hcomp in Hin. }
  split_and!; [done|done|].
  unfold deck.sort, std_sort. by rewrite Hweak.
Qed.

(** A hand of one card, the ace of clubs. *)
Lemma sort_suit_first_ace_witness :
  deck.sort deck.suit_first_descending [card.mk CLUB 1] = UB.
Proof.
  apply (sort_suit_first_ace [card.mk CLUB 1] (card.mk CLUB 1));
    [by constructor|done].
Defined.

Lemma StronglySorted_reverse {A} (R : relation A) (l : list A) :
  StronglySorted R l → StronglySorted (flip R) (reverse l).
Proof.
  induction 1 as [|x l Hsorted IH Hx]; [constructor|].
  rewrite reverse_cons. apply StronglySorted_app_2.
  - intros x1 x2 Hx1 Hx2%list_elem_of_singleton. subst x2.
    rewrite elem_of_reverse in Hx1. unfold flip. by apply (proj1 (Forall_forall _ _) Hx).
  - done.
  - repeat constructor.
Qed.

Lemma strict_weak_on_2019 (hand : deck.t) :
  strict_weak_on v2019.comp hand = true.
Proof.
  unfold strict_weak_on. rewrite !andb_true_iff. split_and!.
  - apply forallb_elem_of. intros a _. unfold v2019.comp.
    destruct (Z.ltb_spec (card.number a) (card.number a)); [lia|].
    rewrite Z.eqb_refl.
    by destruct (Z.ltb_spec (card.suit a) (card.suit a)); [lia|].
  - apply forallb_elem_of. intros a _. apply forallb_elem_of. intros b _.
    apply forallb_elem_of. intros c _. unfold v2019.comp.
    repeat match goal with
           | |- context [?x <? ?y] => destruct (Z.ltb_spec x y)
           | |- context [?x =? ?y] => destruct (Z.eqb_spec x y)
           end; simpl; try done; lia.
  - apply forallb_elem_of. intros a _. apply forallb_elem_of. intros b _.
    apply forallb_elem_of. intros c _. unfold equiv, v2019.comp.
    repeat match goal with
           | |- context [?x <? ?y] => destruct (Z.ltb_spec x y)
           | |- context [?x =? ?y] => destruct (Z.eqb_spec x y)
           end; simpl; try done; lia.
Qed.

Lemma comp_2019_cases (a b : card.t) :
  v2019.comp a b = false ↔
  card.number b < card.number a
  ∨ (card.number a = card.number b ∧ card.suit b ≤ card.suit a).
Proof.
  unfold v2019.comp.
  repeat match goal with
         | |- context [?x <? ?y] => destruct (Z.ltb_spec x y)
         | |- context [?x =? ?y] => destruct (Z.eqb_spec x y)
         end; split; (done || lia).
Qed.

Lemma sorted_2019 (hand : deck.t) :
  sorted_by v2019.comp (merge_sort (may_precede v2019.comp) hand).
Proof.
  apply (merge_sort_on _ (λ _, True)).
  - intros x y _ _. unfold may_precede. rewrite !comp_2019_cases. lia.
  - intros x y z _ _ _. unfold may_precede. rewrite !comp_2019_cases. lia.
  - by apply Forall_true.
Qed.

(** Without aces the sort of 2019 leaves a hand in the reverse of the
    order [sort(rank_first_descending)] leaves it in. *)
Lemma sort_2019_reverse (hand : deck.t) :
  Forall (λ c, card.number c ≠ 1) hand →
  merge_sort (may_precede v2019.comp) hand
  = reverse (merge_sort (may_precede deck.comp_rank_first) hand).
Proof.
  intros Hall.
  apply (StronglySorted_unique_strong (may_precede v2019.comp)).
  - intros [sx nx] [sy ny] _ _. unfold may_precede.
    rewrite !comp_2019_cases. simpl. intros Hxy Hyx.
    assert (nx = ny ∧ sx = sy) as [-> ->]; [lia|done].
  - apply sorted_2019.
  - apply (StronglySorted_on (flip (may_precede deck.comp_rank_first))
             _ (λ c, card.number c ≠ 1)).
    + intros x y Hx Hy. unfold flip, may_precede.
      rewrite comp_2019_cases. unfold deck.comp_rank_first. comp_cases.
    + by rewrite reverse_Permutation, merge_sort_Permutation.
    + apply StronglySorted_reverse, StronglySorted_merge_sort; apply _.
  - by rewrite reverse_Permutation, !merge_sort_Permutation.
Qed.

Lemma sort_each_2019 (hands : list deck.t) :
  ∃ hands',
    v2019.sort_each hands = Ret () hands'
    ∧ Forall2 (λ hand hand', hand' ≡ₚ hand ∧ sorted_by v2019.comp hand')
              hands hands'
    ∧ (Forall (Forall (λ c, card.number c ≠ 1)) hands →
       ∃ hands21,
         poker.sort_each hands = Ret () hands21
         ∧ hands' = reverse <$> hands21).
Proof.
  induction hands as [|hand hands (hands' & Hsort & Hall & Hrev)].
  { exists []. split_and!; [done|constructor|]. intros _. by exists []. }
  exists (merge_sort (may_precede v2019.comp) hand :: hands').
  cbn [v2019.sort_each]. unfold std_sort.
  rewrite strict_weak_on_2019, Hsort. split_and!; [done| |].
  - constructor; [|done].
    split; [apply merge_sort_Permutation|apply sorted_2019].
  - intros [Hhand Hhands]%Forall_cons.
    destruct (Hrev Hhands) as (hands21 & Hsort21 & ->).
    exists (merge_sort (may_precede deck.comp_rank_first) hand :: hands21).
    cbn [poker.sort_each]. rewrite sort_rank_first_ret, Hsort21.
    split; [done|]. rewrite fmap_cons. f_equal. by apply sort_2019_reverse.
Qed.

(** X17. [sort_player_card()] of the header of 2019 always returns: it
    leaves [players] and the pile as they were and every hand a
    permutation of itself with the lesser number first and the lesser
    suit first among equal numbers, aces at the front.  On hands without
    aces it leaves every hand in the reverse of the order in which
    [sort_player_card()] of [poker.h] leaves it. *)
Theorem sort_player_card_2019 (g : poker.t) :
  ∃ g19,
    v2019.sort_player_card g = Ret () g19
    ∧ poker.players g19 = poker.players g
    ∧ poker.pile g19 = poker.pile g
    ∧ Forall2 (λ hand hand',
                 hand' ≡ₚ hand
                 ∧ ∀ (i j : nat) (x y : card.t),
                     hand' !! i = Some x → hand' !! j = Some y →
                     (i < j)%nat →
                     card.number x < card.number y
                     ∨ (card.number x = card.number y
                        ∧ card.suit x ≤ card.suit y))
              (poker.player_card g) (poker.player_card g19)
    ∧ (Forall (Forall (λ c, card.number c ≠ 1)) (poker.player_card g) →
       ∃ g21,
         poker.sort_player_card g = Ret () g21
         ∧ poker.player_card g19 = reverse <$> poker.player_card g21).
Proof.
  destruct (sort_each_2019 (poker.player_card g))
    as (hands' & Hsort & Hall & Hrev).
  exists (poker.mk (poker.players g) (poker.pile g) hands').
  unfold v2019.sort_player_card. rewrite Hsort.
  split_and!; [done|done|done| |].
  - eapply Forall2_impl; [exact Hall|].
    intros hand hand' [Hperm Hsorted]. split; [done|].
    intros i j x y Hi Hj Hij.
    pose proof (sorted_by_lookup _ _ _ _ _ _ Hsorted Hi Hj Hij) as Hcomp.
    apply comp_2019_cases in Hcomp. lia.
  - intros Hno. destruct (Hrev Hno) as (hands21 & Hsort21 & ->).
    exists (poker.mk (poker.players g) (poker.pile g) hands21).
    unfold poker.sort_player_card. by rewrite Hsort21.
Qed.

(** Two hands, K♥ 2♣ JOKER 2♠ and 10♦ Q♣. *)
Lemma sort_player_card_2019_witness :
  v2019.sort_player_card
    (poker.mk 2 []
       [[card.mk HEART 13; card.mk CLUB 2; aux.joker; card.mk SPADE 2];
        [card.mk DIAMOND 10; card.mk CLUB 12]])
  = Ret () (poker.mk 2 []
              [[card.mk CLUB 2; card.mk SPADE 2; card.mk HEART 13; aux.joker];
               [card.mk DIAMOND 10; card.mk CLUB 12]])
  ∧ poker.sort_player_card
      (poker.mk 2 []
         [[card.mk HEART 13; card.mk CLUB 2; aux.joker; card.mk SPADE 2];
          [card.mk DIAMOND 10; card.mk CLUB 12]])
    = Ret () (poker.mk 2 []
                [[aux.joker; card.mk HEART 13; card.mk SPADE 2; card.mk CLUB 2];
                 [card.mk CLUB 12; card.mk DIAMOND 10]]).
Proof.
  destruct (sort_player_card_2019
              (poker.mk 2 []
                 [[card.mk HEART 13; card.mk CLUB 2; aux.joker;
                   card.mk SPADE 2];
                  [card.mk DIAMOND 10; card.mk CLUB 12]]))
    as (g19 & Hsort & _ & _ & _ & Hrev).
  destruct Hrev as (g21 & Hsort21 & _).
  { repeat constructor; vm_compute; discriminate. }
  rewrite Hsort, Hsort21. vm_compute in Hsort, Hsort21.
  injection Hsort as <-. injection Hsort21 as <-. done.
Defined.

(** ** poker::shuffle on two cards *)

Lemma redraw_differs (a b : Z) (rs rs' : list Z) :
  poker.redraw a rs = Some (b, rs') → a ≠ b.
Proof.
  induction rs as [|c rs IH]; simpl; [done|].
  destruct (Z.eqb_spec a c) as [|Hne]; [done|]. by intros [= <- _].
Qed.

Lemma shuffle_loop_two (time : nat) :
  ∀ (rs : list Z) (g : poker.t) (x y : card.t) (o : outcome poker.t ()),
    poker.pile g = [x; y] → Forall (λ r, r = 0 ∨ r = 1) rs →
    poker.shuffle_loop time rs g = Some o →
    o = Ret () (poker.mk (poker.players g)
                  (if Nat.even time then [x; y] else [y; x])
                  (poker.player_card g)).
Proof.
  induction time as [|time IH]; intros rs g x y o Hpile Hrs Hloop.
  { destruct g. simpl in *. subst. by injection Hloop as <-. }
  cbn [poker.shuffle_loop] in Hloop.
  destruct rs as [|a rs1]; [done|].
  apply Forall_cons in Hrs as [Ha Hrs1].
  destruct (poker.redraw a rs1) as [[b rs2]|] eqn:Hredraw; [|done].
  pose proof (redraw_differs _ _ _ _ Hredraw) as Hab.
  destruct (redraw_Forall _ _ _ _ _ Hredraw Hrs1) as [Hb Hrs2].
  assert (Hswap : poker.on_pile (poker.swap a b) g
                  = Ret () (poker.mk (poker.players g) [y; x]
                              (poker.player_card g))).
  { unfold poker.on_pile. rewrite Hpile.
    destruct Ha as [-> | ->], Hb as [-> | ->]; done. }
  rewrite Hswap in Hloop.
  apply (IH _ _ y x) in Hloop; [|done|done]. subst o.
  cbn [poker.players poker.player_card].
  rewrite Nat.even_succ, <- Nat.negb_even. by destruct (Nat.even time).
Qed.

(** X18. On a pile of two cards the draws do not matter: the two
    indices of an iteration are 0 and 1 in one order or the other, so
    that [shuffle(time)], when it returns, has swapped the two cards
    [time] times; for an even [time], the default 1000 among them, it
    leaves the pile as it was. *)
Theorem shuffle_two_cards (g : poker.t) (time : Z) (rs : list Z)
    (x y : card.t) (o : outcome poker.t ()) :
  poker.pile g = [x; y] → 0 ≤ time → aux.drawable g rs →
  poker.shuffle time rs g = Some o →
  o = Ret () (poker.mk (poker.players g)
                (if Z.even time then [x; y] else [y; x])
                (poker.player_card g)).
Proof.
  intros Hpile Htime Hrs Hshuffle.
  assert (Heven : Nat.even (Z.to_nat time) = Z.even time).
  { destruct (Z.even time) eqn:Hev.
    - apply Z.even_spec in Hev as [m ->]. apply Nat.even_spec.
      exists (Z.to_nat m). lia.
    - apply not_true_iff_false. rewrite Nat.even_spec. intros [m Hm].
      apply not_true_iff_false in Hev. apply Hev, Z.even_spec.
      exists (Z.of_nat m). lia. }
  rewrite <- Heven. apply (shuffle_loop_two _ rs); [done| |done].
  eapply Forall_impl; [exact Hrs|]. intros r Hr.
  unfold poker.unif_floor, poker.shuffle_sz in Hr. rewrite Hpile in Hr.
  change (uint (deck.size [x; y])) with 2 in Hr. simpl in Hr.
  apply andb_true_iff in Hr as [Hlo Hhi].
  apply Z.leb_le in Hlo. apply Z.ltb_lt in Hhi. lia.
Qed.

(** [shuffle()] with its default 1000 on the two black aces. *)
Lemma shuffle_two_cards_witness :
  poker.shuffle 1000 (aux.zero_one 1000)
    (poker.mk 1 [card.mk SPADE 1; card.mk CLUB 1] [[]])
  = Some (Ret () (poker.mk 1 [card.mk SPADE 1; card.mk CLUB 1] [[]])).
Proof.
  destruct (poker.shuffle 1000 (aux.zero_one 1000)
              (poker.mk 1 [card.mk SPADE 1; card.mk CLUB 1] [[]]))
    as [o|] eqn:Hshuffle; [|vm_compute in Hshuffle; discriminate].
  f_equal.
  apply (shuffle_two_cards _ 1000 (aux.zero_one 1000)
           (card.mk SPADE 1) (card.mk CLUB 1) o) in Hshuffle;
    [exact Hshuffle|reflexivity|lia|].
  unfold aux.drawable, aux.zero_one.
  apply Forall_concat, Forall_replicate. by repeat constructor.
Defined.
